(** * Shapescape NBT Replacer: the replacement engine, the format dispatcher,
      the rule loop and the adaptive concurrency controller

    A shallow embedding of [shapescape_nbt_replacer/nbt_replacer.js].

    - NBT tags (deepslate's [NbtTag] objects) are a tree type; a decoded file
      is tree shaped, every child object has one parent, so the in-place
      [tag.set(k, new NbtString(..))] of the source is a functional update of
      the parent and the walk returns the updated tree next to its result.
    - The callback [onReplace] is an effect: the walk returns the list of its
      invocations, in the order they happen.
    - The JavaScript regular-expression engine, the deepslate codec and
      fast-glob are collaborators of the program; they are records and
      section variables, with small instances for the concrete runs.
    - Files, file operations and console lines are threaded through
      [processFile] and the rule loop as an explicit world.
    - The controller's limits are numbers, whole or not, and its durations
      whole milliseconds ([Date.now()] differences, of either sign); the two
      averages are taken in exact rational arithmetic.

    The definitions come first, the lemmas and the claims after them. *)

From Stdlib Require Import ZArith QArith Qround Qabs Qminmax Lia Lqa List String.
From Stdlib Require Import Ascii Bool Arith.
From Stdlib Require Import DecimalString Permutation.
Import ListNotations.

Local Close Scope Q_scope.
Local Open Scope string_scope.
Local Open Scope list_scope.

(* ================================================================== *)
(** ** The tree model *)
(* ================================================================== *)

(** The tag kinds the walk only passes over ([NbtType] other than
    [String], [Compound] and [List]). *)
Inductive OpaqueType :=
| TEnd | TByte | TShort | TInt | TLong | TFloat | TDouble
| TByteArray | TIntArray | TLongArray.

Unset Elimination Schemes.
Inductive Tree :=
| NbtString (value : string)
| NbtCompound (entries : list (string * Tree))
| NbtList (items : list Tree)
| NbtOpaque (type : OpaqueType) (payload : list Z).
Set Elimination Schemes.

Inductive NbtType :=
| IdString | IdCompound | IdList | IdOther (t : OpaqueType).

(** [tag.getId()]; the tests of the walk on it are matches on the
    constructor. *)
Definition getId (tag : Tree) : NbtType :=
  match tag with
  | NbtString _ => IdString
  | NbtCompound _ => IdCompound
  | NbtList _ => IdList
  | NbtOpaque t _ => IdOther t
  end.

(** Induction over a tree with the hypothesis available for every child. *)
Definition Tree_ind (P : Tree -> Prop)
  (HS : forall v, P (NbtString v))
  (HC : forall es, Forall (fun e => P (snd e)) es -> P (NbtCompound es))
  (HL : forall ts, Forall P ts -> P (NbtList ts))
  (HO : forall t p, P (NbtOpaque t p)) : forall t, P t :=
  fix go (t : Tree) : P t :=
    match t with
    | NbtString v => HS v
    | NbtCompound es =>
        HC es ((fix goE (l : list (string * Tree)) : Forall (fun e => P (snd e)) l :=
                  match l with
                  | [] => Forall_nil _
                  | e :: l' => Forall_cons e (go (snd e)) (goE l')
                  end) es)
    | NbtList ts =>
        HL ts ((fix goL (l : list Tree) : Forall P l :=
                  match l with
                  | [] => Forall_nil _
                  | x :: l' => Forall_cons x (go x) (goL l')
                  end) ts)
    | NbtOpaque t' p => HO t' p
    end.

(* ================================================================== *)
(** ** Strings of the host language *)
(* ================================================================== *)

(** [Array.prototype.join]. *)
Fixpoint join (sep : string) (parts : list string) : string :=
  match parts with
  | [] => ""
  | [p] => p
  | p :: rest => p ++ sep ++ join sep rest
  end.

(** The template literal [`[${i}]`]. *)
Definition indexSegment (i : nat) : string :=
  "[" ++ NilEmpty.string_of_uint (Nat.to_uint i) ++ "]".

(** [String.prototype.toLowerCase] on the ASCII letters. *)
Definition lowerAscii (c : ascii) : ascii :=
  let n := nat_of_ascii c in
  if (65 <=? n)%nat && (n <=? 90)%nat then ascii_of_nat (n + 32) else c.

Fixpoint toLowerCase (s : string) : string :=
  match s with
  | EmptyString => EmptyString
  | String c rest => String (lowerAscii c) (toLowerCase rest)
  end.

(** [String.prototype.endsWith]. *)
Definition endsWith (s suffix : string) : bool :=
  let n := String.length s in
  let m := String.length suffix in
  (m <=? n)%nat && (substring (n - m) m s =? suffix).

(** [from.replace(/\u0008/g, "\\b")]: a backspace character, which is what
    a JSON ["\b"] decodes to, becomes the two characters of a word boundary. *)
Fixpoint normPattern (from : string) : string :=
  match from with
  | EmptyString => EmptyString
  | String c rest =>
      if Ascii.eqb c (ascii_of_nat 8)
      then String (ascii_of_nat 92) (String "b" (normPattern rest))
      else String c (normPattern rest)
  end.

(** The string holds a backspace character. *)
Fixpoint hasBackspace (s : string) : bool :=
  match s with
  | EmptyString => false
  | String c rest => Ascii.eqb c (ascii_of_nat 8) || hasBackspace rest
  end.

(* ================================================================== *)
(** ** The regular-expression collaborator *)
(* ================================================================== *)

(** [RegExp_new pattern flags] is [new RegExp(pattern, flags)], [None] when
    the constructor throws; [String_replace r s to] is [s.replace(r, to)];
    [RegExp_test r s] is [r.test(s)] started at [lastIndex = 0], as every
    call of the program is.  Both are functions of their arguments: a sticky
    pattern without the global flag, whose [lastIndex] survives a call, is
    outside this interface. *)
Record JsRegExp := {
  RegExp : Type;
  RegExp_new : string -> string -> option RegExp;
  String_replace : RegExp -> string -> string -> string;
  RegExp_test : RegExp -> string -> bool
}.

(* ================================================================== *)
(** ** The matcher/replacer engine: [replaceStringsDeep] *)
(* ================================================================== *)

Section Engine.

Variable js : JsRegExp.
(** The result type of the callback (a console line in [processFile]). *)
Variable E : Type.

(** The arguments of [replaceStringsDeep] that every recursive call passes
    on unchanged. *)
Variable property : option string.
Variable from to : string.
Variable useRegex : bool.
Variable regex : option (RegExp js).
Variable onReplace : option (string -> string -> string -> E).

(** Truthiness of a [string | null]: [null] and the empty string are falsy. *)
Definition truthy (p : option string) : bool :=
  match p with
  | None => false
  | Some s => negb (s =? "")
  end.

(** [!property || property === k], the guard of a compound's child. *)
Definition propertyAllowsKey (k : string) : bool :=
  negb (truthy property) ||
  match property with Some p => p =? k | None => false end.

(** [!property], the guard of a list element. *)
Definition propertyAllowsElement : bool := negb (truthy property).

(** The decision taken on the value of a string child that passed the guard:
    the new value when the child is replaced, [None] when the branch falls
    through to the recursive call. *)
Definition replacement (oldVal : string) : option string :=
  match useRegex, regex with
  | true, Some r =>
      let newVal := String_replace js r oldVal to in
      if newVal =? oldVal then None else Some newVal
  | _, _ =>
      if oldVal =? from then Some to else None
  end.

(** [if (onReplace) onReplace([...pathParts, seg].join(" > "), oldVal, newVal)]. *)
Definition report (pathParts : list string) (seg oldVal newVal : string)
  : list E :=
  match onReplace with
  | Some cb => [cb (join " > " (pathParts ++ [seg])) oldVal newVal]
  | None => []
  end.

(** The walk returns the updated tag, the number of replacements and the
    callback invocations.  [currentKey] is passed along as in the source,
    which never reads it. *)
Fixpoint replaceStringsDeep (tag : Tree) (currentKey : option string)
  (pathParts : list string) {struct tag} : Tree * nat * list E :=
  match tag with
  | NbtString _ => (tag, 0, [])
  | NbtCompound entries =>
      let fix forKeys (es : list (string * Tree))
        : list (string * Tree) * nat * list E :=
        match es with
        | [] => ([], 0, [])
        | (k, child) :: rest =>
            let '(child', n, calls) :=
              match child with
              | NbtString oldVal =>
                  if propertyAllowsKey k then
                    match replacement oldVal with
                    | Some newVal =>
                        (NbtString newVal, 1, report pathParts k oldVal newVal)
                    | None =>
                        replaceStringsDeep child (Some k) (pathParts ++ [k])
                    end
                  else replaceStringsDeep child (Some k) (pathParts ++ [k])
              | _ => replaceStringsDeep child (Some k) (pathParts ++ [k])
              end in
            let '(rest', m, calls') := forKeys rest in
            ((k, child') :: rest', n + m, calls ++ calls')
        end in
      let '(es', changes, calls) := forKeys entries in
      (NbtCompound es', changes, calls)
  | NbtList items =>
      let fix forIndex (i : nat) (ts : list Tree)
        : list Tree * nat * list E :=
        match ts with
        | [] => ([], 0, [])
        | child :: rest =>
            let seg := indexSegment i in
            let '(child', n, calls) :=
              match child with
              | NbtString oldVal =>
                  if propertyAllowsElement then
                    match replacement oldVal with
                    | Some newVal =>
                        (NbtString newVal, 1, report pathParts seg oldVal newVal)
                    | None =>
                        replaceStringsDeep child None (pathParts ++ [seg])
                    end
                  else replaceStringsDeep child None (pathParts ++ [seg])
              | _ => replaceStringsDeep child None (pathParts ++ [seg])
              end in
            let '(rest', m, calls') := forIndex (S i) rest in
            (child' :: rest', n + m, calls ++ calls')
        end in
      let '(ts', changes, calls) := forIndex 0 items in
      (NbtList ts', changes, calls)
  | NbtOpaque _ _ => (tag, 0, [])
  end.

(** *** The loop bodies on their own *)

(** What one iteration does with [child], reached under segment [seg]. *)
Definition visit (allowed : bool) (key : option string)
  (pathParts : list string) (seg : string) (child : Tree)
  : Tree * nat * list E :=
  match child with
  | NbtString oldVal =>
      if allowed then
        match replacement oldVal with
        | Some newVal =>
            (NbtString newVal, 1, report pathParts seg oldVal newVal)
        | None => replaceStringsDeep child key (pathParts ++ [seg])
        end
      else replaceStringsDeep child key (pathParts ++ [seg])
  | _ => replaceStringsDeep child key (pathParts ++ [seg])
  end.

(** The [for (const k of tag.keys())] loop. *)
Fixpoint forKeys (pathParts : list string) (es : list (string * Tree))
  : list (string * Tree) * nat * list E :=
  match es with
  | [] => ([], 0, [])
  | (k, child) :: rest =>
      let '(child', n, calls) :=
        visit (propertyAllowsKey k) (Some k) pathParts k child in
      let '(rest', m, calls') := forKeys pathParts rest in
      ((k, child') :: rest', n + m, calls ++ calls')
  end.

(** The [for (let i = 0; i < len; i++)] loop, from index [i] on. *)
Fixpoint forIndex (pathParts : list string) (i : nat) (ts : list Tree)
  : list Tree * nat * list E :=
  match ts with
  | [] => ([], 0, [])
  | child :: rest =>
      let '(child', n, calls) :=
        visit propertyAllowsElement None pathParts (indexSegment i) child in
      let '(rest', m, calls') := forIndex pathParts (S i) rest in
      (child' :: rest', n + m, calls ++ calls')
  end.

(** *** [logAllStringTags] *)

(** One line of the debug listing: [`${pathStr} = "${val}"${matchMark}`]. *)
Record TagLine := {
  line_path : string;
  line_value : string;
  line_match : bool
}.

(** The mark of a string tag under the match context
    [{ property, from, regex }]; [pathParts[pathParts.length - 1]] is
    [undefined] on an empty path, which no [property] equals. *)
Definition matchMark (ctxRegex : option (RegExp js)) (pathParts : list string)
  (val : string) : bool :=
  let propertyOk :=
    negb (truthy property) ||
    match property, last (map Some pathParts) None with
    | Some p, Some lastKey => p =? lastKey
    | _, _ => false
    end in
  propertyOk &&
  match ctxRegex with
  | Some r => RegExp_test js r val
  | None => val =? from
  end.

(** The listing returns the number of String tags and, as its effect, the
    lines it hands to [debug]. *)
Fixpoint logAllStringTags (ctxRegex : option (RegExp js)) (tag : Tree)
  (pathParts : list string) {struct tag} : nat * list TagLine :=
  match tag with
  | NbtString val =>
      let pathStr :=
        match pathParts with [] => "(root)" | _ => join " > " pathParts end in
      (1, [{| line_path := pathStr; line_value := val;
              line_match := matchMark ctxRegex pathParts val |}])
  | NbtCompound entries =>
      let fix forKeys (es : list (string * Tree)) : nat * list TagLine :=
        match es with
        | [] => (0, [])
        | (k, child) :: rest =>
            let '(n, ls) := logAllStringTags ctxRegex child (pathParts ++ [k]) in
            let '(m, ls') := forKeys rest in
            (n + m, ls ++ ls')
        end in
      forKeys entries
  | NbtList items =>
      let fix forIndex (i : nat) (ts : list Tree) : nat * list TagLine :=
        match ts with
        | [] => (0, [])
        | child :: rest =>
            let '(n, ls) :=
              logAllStringTags ctxRegex child (pathParts ++ [indexSegment i]) in
            let '(m, ls') := forIndex (S i) rest in
            (n + m, ls ++ ls')
        end in
      forIndex 0 items
  | NbtOpaque _ _ => (0, [])
  end.

End Engine.

Arguments replaceStringsDeep js {E}.
Arguments visit js {E}.
Arguments forKeys js {E}.
Arguments forIndex js {E}.
Arguments report {E}.

(* ================================================================== *)
(** ** Tag paths and change events *)
(* ================================================================== *)

(** A path segment: a compound key or a list index. *)
Inductive Segment :=
| Key (k : string)
| Index (i : nat).

(** The segment as the walk writes it into [pathParts]. *)
Definition segmentString (seg : Segment) : string :=
  match seg with
  | Key k => k
  | Index i => indexSegment i
  end.

(** [tag.get(k)] on a compound: the child bound to the key. *)
Fixpoint getKey (es : list (string * Tree)) (k : string) : option Tree :=
  match es with
  | [] => None
  | (k', child) :: rest => if k' =? k then Some child else getKey rest k
  end.

(** [tag.get(k)] / [tag.get(i)]: the child of a tag under one segment. *)
Definition getChild (tag : Tree) (seg : Segment) : option Tree :=
  match tag, seg with
  | NbtCompound es, Key k => getKey es k
  | NbtList ts, Index i => nth_error ts i
  | _, _ => None
  end.

(** The tag a path leads to from the root. *)
Fixpoint tagAt (tag : Tree) (path : list Segment) : option Tree :=
  match path with
  | [] => Some tag
  | seg :: rest =>
      match getChild tag seg with
      | Some child => tagAt child rest
      | None => None
      end
  end.

(** A String tag that is a child: the path of its parent, its own segment
    and its value. *)
Record StringLeaf := {
  leaf_parent : list Segment;
  leaf_segment : Segment;
  leaf_value : string
}.

(** The String children of a tree in depth-first order: compound children
    in stored key order, list elements in index order. *)
Fixpoint stringLeaves (parent : list Segment) (tag : Tree) {struct tag}
  : list StringLeaf :=
  match tag with
  | NbtCompound entries =>
      flat_map
        (fun '(k, child) =>
           match child with
           | NbtString v =>
               [{| leaf_parent := parent; leaf_segment := Key k; leaf_value := v |}]
           | _ => stringLeaves (parent ++ [Key k]) child
           end)
        entries
  | NbtList items =>
      let fix from_ (i : nat) (ts : list Tree) : list StringLeaf :=
        match ts with
        | [] => []
        | child :: rest =>
            match child with
            | NbtString v =>
                [{| leaf_parent := parent; leaf_segment := Index i;
                    leaf_value := v |}]
            | _ => stringLeaves (parent ++ [Index i]) child
            end ++ from_ (S i) rest
        end in
      from_ 0 items
  | _ => []
  end.

(** The list case of [stringLeaves], from index [i] on. *)
Fixpoint stringLeavesFrom (parent : list Segment) (i : nat) (ts : list Tree)
  : list StringLeaf :=
  match ts with
  | [] => []
  | child :: rest =>
      match child with
      | NbtString v =>
          [{| leaf_parent := parent; leaf_segment := Index i; leaf_value := v |}]
      | _ => stringLeaves (parent ++ [Index i]) child
      end ++ stringLeavesFrom parent (S i) rest
  end.

(** The leaves one loop iteration accounts for. *)
Definition leavesUnder (parent : list Segment) (seg : Segment) (child : Tree)
  : list StringLeaf :=
  match child with
  | NbtString v =>
      [{| leaf_parent := parent; leaf_segment := seg; leaf_value := v |}]
  | _ => stringLeaves (parent ++ [seg]) child
  end.

(** The number of String tags of a tree, the root included. *)
Fixpoint countStrings (tag : Tree) : nat :=
  match tag with
  | NbtString _ => 1
  | NbtCompound entries =>
      list_sum (map (fun e => countStrings (snd e)) entries)
  | NbtList items => list_sum (map countStrings items)
  | NbtOpaque _ _ => 0
  end.

(** A Change Event: the tag path from the root, the old and the new value. *)
Record ChangeEvent := {
  path : list Segment;
  oldValue : string;
  newValue : string
}.

Section Changes.

Variable js : JsRegExp.
Variable property : option string.
Variable from to : string.
Variable useRegex : bool.
Variable regex : option (RegExp js).

(** The guard of a child, by the kind of its segment. *)
Definition segmentAllowed (seg : Segment) : bool :=
  match seg with
  | Key k => propertyAllowsKey property k
  | Index _ => propertyAllowsElement property
  end.

(** The value a String child has after the walk. *)
Definition leafResult (seg : Segment) (v : string) : string :=
  if segmentAllowed seg then
    match replacement js from to useRegex regex v with
    | Some newVal => newVal
    | None => v
    end
  else v.

(** The event of a String child, when it is replaced. *)
Definition changeOf (l : StringLeaf) : option ChangeEvent :=
  if segmentAllowed (leaf_segment l) then
    match replacement js from to useRegex regex (leaf_value l) with
    | Some newVal =>
        Some {| path := leaf_parent l ++ [leaf_segment l];
                oldValue := leaf_value l; newValue := newVal |}
    | None => None
    end
  else None.

(** The events of a tree: one per replaced String child, in traversal
    order. *)
Definition changeEvents (parent : list Segment) (tag : Tree) : list ChangeEvent :=
  flat_map (fun l => match changeOf l with Some e => [e] | None => [] end)
    (stringLeaves parent tag).

End Changes.



(** The call of [onReplace] that delivers an event. *)
Definition deliver {E : Type} (cb : string -> string -> string -> E)
  (e : ChangeEvent) : E :=
  cb (join " > " (map segmentString (path e))) (oldValue e) (newValue e).

(* ================================================================== *)
(** ** The codec, the file system and [processFile] *)
(* ================================================================== *)

Inductive Compression := gzip | zlib.

(** The options object of [NbtFile.read]; an absent field is [None]. *)
Record ReadOptions := {
  bedrockHeader : option bool;
  littleEndian : option bool;
  compression : option Compression
}.

(** One decode strategy: [{ opts, label }], [opts: undefined] as [None]. *)
Record Strategy := {
  opts : option ReadOptions;
  label : string
}.

(** The binary side of [processFile]: deepslate's codec and the write of a
    file.  [NbtFile.read(bytes, opts)] and [nbtFile.write()] are [None] when
    they throw.  [Meta] is what an [NbtFile] carries besides its root (name,
    header, byte order, compression).  [fs_writeFile p buf out] is
    [fs.writeFile(p, Buffer.from(out))] on a file that holds [buf]: [None]
    when it resolves, and the file then holds [out]; [Some kept] when it
    throws, [kept] being what the file holds afterwards. *)
Record Deepslate := {
  Bytes : Type;
  Meta : Type;
  NbtFile_read : Bytes -> option ReadOptions -> option (Meta * Tree);
  NbtFile_write : Meta * Tree -> option Bytes;
  fs_writeFile : string -> Bytes -> Bytes -> option Bytes
}.

(** The files of the working tree, by path. *)
Definition FileSystem (B : Type) := list (string * B).

Fixpoint readFile {B : Type} (fs : FileSystem B) (p : string) : option B :=
  match fs with
  | [] => None
  | (q, b) :: rest => if q =? p then Some b else readFile rest p
  end.

Fixpoint writeFile {B : Type} (fs : FileSystem B) (p : string) (b : B)
  : FileSystem B :=
  match fs with
  | [] => [(p, b)]
  | (q, b') :: rest =>
      if q =? p then (q, b) :: rest else (q, b') :: writeFile rest p b
  end.

(** The file operations a run performs, in order: a read, a write that
    resolved, a write that threw. *)
Inductive FileOp (B : Type) :=
| OpRead (p : string)
| OpWrite (p : string) (b : B)
| OpWriteFailed (p : string) (b : B).
Arguments OpRead {B}.
Arguments OpWrite {B}.
Arguments OpWriteFailed {B}.

(** The lines a run prints, debug output apart. *)
Inductive ConsoleLine :=
| LineReplace (relativePath tagPath oldVal newVal : string)
| LineRuleFailed (ruleNumber : nat) (filePath : string)
| LineRequiredFields (ruleNumber : nat)
| LineInvalidRegex (ruleNumber : nat)
| LineErrorProcessingFile
| LineDone (filesChanged stringsChanged : nat).

Record World (B : Type) := {
  files : FileSystem B;
  ops : list (FileOp B);
  console : list ConsoleLine
}.
Arguments files {B}.
Arguments ops {B}.
Arguments console {B}.

(** What a job returns: [{ filesChanged, stringsChanged }]. *)
Record FileResult := {
  filesChanged : nat;
  stringsChanged : nat
}.

Definition bedrock : ReadOptions :=
  {| bedrockHeader := Some true; littleEndian := None; compression := None |}.
Definition bedrockWith (c : Compression) : ReadOptions :=
  {| bedrockHeader := Some true; littleEndian := None; compression := Some c |}.
Definition endian (little : bool) : ReadOptions :=
  {| bedrockHeader := None; littleEndian := Some little; compression := None |}.
Definition compressed (c : Compression) : ReadOptions :=
  {| bedrockHeader := None; littleEndian := None; compression := Some c |}.

(** The list [attempts] that [processFile] builds from the lower-cased
    file name. *)
Definition attempts (lower : string) : list Strategy :=
  (if endsWith lower ".mcstructure.gz"
   then [{| opts := Some (bedrockWith gzip); label := "bedrock+gzip" |}]
   else []) ++
  (if endsWith lower ".mcstructure"
   then [{| opts := Some bedrock; label := "bedrock" |};
         {| opts := Some (bedrockWith zlib); label := "bedrock+zlib" |};
         {| opts := Some (bedrockWith gzip); label := "bedrock+gzip" |}]
   else []) ++
  [{| opts := None; label := "auto" |};
   {| opts := Some (endian true); label := "littleEndian" |};
   {| opts := Some (compressed gzip); label := "gzip" |};
   {| opts := Some (compressed zlib); label := "zlib" |}].

(** The list [retryStrategies]. *)
Definition retryStrategies : list Strategy :=
  [{| opts := None; label := "auto" |};
   {| opts := Some bedrock; label := "bedrockHeader" |};
   {| opts := Some (endian true); label := "littleEndian" |};
   {| opts := Some (endian false); label := "javaLike" |}].

Section ProcessFile.

Variable js : JsRegExp.
Variable codec : Deepslate.
(** [path.relative(process.cwd(), filePath)]. *)
Variable relative : string -> string.

Let NbtFile : Type := (Meta codec * Tree)%type.

(** The first loop: the first strategy that reads without throwing. *)
Fixpoint firstRead (u8 : Bytes codec) (l : list Strategy) : option NbtFile :=
  match l with
  | [] => None
  | a :: rest =>
      match NbtFile_read codec u8 (opts a) with
      | Some nbtFile => Some nbtFile
      | None => firstRead u8 rest
      end
  end.

(** The retry loop: the first strategy that reads without throwing and
    whose listing counts more than zero, [None] when the loop ends with
    [reparsed] untouched. *)
Fixpoint reparse (property : option string) (from : string)
  (ctxRegex : option (RegExp js)) (buf : Bytes codec) (l : list Strategy)
  : option NbtFile :=
  match l with
  | [] => None
  | strat :: rest =>
      match NbtFile_read codec buf (opts strat) with
      | Some tmp =>
          let cnt := fst (logAllStringTags js property from ctxRegex (snd tmp) []) in
          if (0 <? cnt)%nat then Some tmp
          else reparse property from ctxRegex buf rest
      | None => reparse property from ctxRegex buf rest
      end
  end.

(** From the bytes to the [nbtFile] the replacement phase works on: the
    accepted read, or the reparsed file when the accepted one lists no
    String tag and a retry strategy lists one.  [None] when every attempt
    throws. *)
Definition parse (filePath : string) (propFilter : option string)
  (from : string) (useRegex : bool) (regex : option (RegExp js))
  (buf : Bytes codec) : option NbtFile :=
  let lower := toLowerCase filePath in
  match firstRead buf (attempts lower) with
  | None => None
  | Some nbtFile =>
      let ctxRegex := if useRegex then regex else None in
      let loggedCount :=
        fst (logAllStringTags js propFilter from ctxRegex (snd nbtFile) []) in
      if (loggedCount =? 0)%nat then
        match reparse propFilter from ctxRegex buf retryStrategies with
        | Some tmp => Some tmp
        | None => Some nbtFile
        end
      else Some nbtFile
  end.

(** The files the strategies of a list read, in the order of the list;
    a strategy that throws contributes none. *)
Definition reads (buf : Bytes codec) (l : list Strategy) : list NbtFile :=
  flat_map
    (fun strat =>
       match NbtFile_read codec buf (opts strat) with
       | Some f => [f]
       | None => []
       end) l.

(** The file holds a String tag. *)
Definition hasString (f : NbtFile) : bool := (0 <? countStrings (snd f))%nat.

(** The callback [processFile] hands to the walk. *)
Definition onReplaceOf (notify : bool) (filePath : string)
  : option (string -> string -> string -> ConsoleLine) :=
  if notify then Some (LineReplace (relative filePath)) else None.

(** [processFile]: the new world and either the failure the job rejects
    with ([inl tt]) or its result.  Whatever throws inside the [try] block,
    the read, the parse or the write-back, is caught, reported and thrown
    again. *)
Definition processFile (filePath : string) (rIndex : nat)
  (propFilter : option string) (from to : string) (useRegex : bool)
  (regex : option (RegExp js)) (notify : bool) (w : World (Bytes codec))
  : World (Bytes codec) * (unit + FileResult) :=
  let failed (w' : World (Bytes codec)) :=
    ({| files := files w'; ops := ops w';
        console := console w' ++ [LineRuleFailed (rIndex + 1) filePath] |},
     inl tt) in
  let w1 := {| files := files w; ops := ops w ++ [OpRead filePath];
               console := console w |} in
  match readFile (files w) filePath with
  | None => failed w1
  | Some buf =>
      match parse filePath propFilter from useRegex regex buf with
      | None => failed w1
      | Some nbtFile =>
          let '(root', changed, lines) :=
            replaceStringsDeep js propFilter from to useRegex regex
              (onReplaceOf notify filePath) (snd nbtFile) None [] in
          let w2 := {| files := files w1; ops := ops w1;
                       console := console w1 ++ lines |} in
          if (0 <? changed)%nat then
            match NbtFile_write codec (fst nbtFile, root') with
            | None => failed w2
            | Some out =>
                match fs_writeFile codec filePath buf out with
                | None =>
                    ({| files := writeFile (files w2) filePath out;
                        ops := ops w2 ++ [OpWrite filePath out];
                        console := console w2 |},
                     inr {| filesChanged := 1; stringsChanged := changed |})
                | Some kept =>
                    failed {| files := writeFile (files w2) filePath kept;
                              ops := ops w2 ++ [OpWriteFailed filePath out];
                              console := console w2 |}
                end
            end
          else (w2, inr {| filesChanged := 0; stringsChanged := 0 |})
      end
  end.

End ProcessFile.

(* ================================================================== *)
(** ** The rule loop of [main] *)
(* ================================================================== *)

(** A rule as it arrives in the JSON argument; an absent field is [None]. *)
Record ReplacementRule := {
  rule_path : option string;
  rule_property : option string;
  rule_from : option string;
  rule_to : option string;
  rule_regex : option bool;
  rule_flags : option string;
  rule_notify : option bool
}.

(** How a run ends: [process.exit(code)], or the end of [main] with the
    totals it prints. *)
Inductive Outcome :=
| Exit (code : Z)
| Done (totalFilesChanged totalStringsChanged : nat).

(** [x === true] on an optional boolean. *)
Definition isTrue (x : option bool) : bool :=
  match x with Some true => true | _ => false end.

(** [String(x ?? "")]. *)
Definition orEmpty (x : option string) : string :=
  match x with Some s => s | None => "" end.

Section Main.

Variable js : JsRegExp.
Variable codec : Deepslate.
Variable relative : string -> string.
(** [fg(globPattern, { dot: true, onlyFiles: true })] on the current files. *)
Variable fg : FileSystem (Bytes codec) -> string -> list string.
(** [cfg.notify]. *)
Variable cfgNotify : option bool.

(** [!globPattern || rule.from === undefined || rule.to === undefined]. *)
Definition missingRequired (rule : ReplacementRule) : bool :=
  negb (truthy (rule_path rule)) ||
  match rule_from rule with None => true | Some _ => false end ||
  match rule_to rule with None => true | Some _ => false end.

(** The [try] block of a regex rule: the compiled pattern, [None] when
    [new RegExp] throws. *)
Definition compileRule (rule : ReplacementRule) : option (RegExp js) :=
  let flags :=
    match rule_flags rule with Some f => f | None => "g" end in
  RegExp_new js (normPattern (orEmpty (rule_from rule))) flags.

(** The rule is one the loop exits on: a required field is missing, or it
    is a regex rule whose pattern and flags do not compile. *)
Definition offending (rule : ReplacementRule) : bool :=
  missingRequired rule ||
  (isTrue (rule_regex rule) &&
   match compileRule rule with None => true | Some _ => false end).

(** The jobs of one rule.  Every job reads and writes its own file only, so
    the files and the results do not depend on how the controller
    interleaves the jobs; they are run here one after the other, in the
    order of the file list. *)
Fixpoint runJobs (filePaths : list string) (rIndex : nat)
  (propFilter : option string) (from to : string) (useRegex : bool)
  (regex : option (RegExp js)) (notify : bool) (w : World (Bytes codec))
  : World (Bytes codec) * list (unit + FileResult) :=
  match filePaths with
  | [] => (w, [])
  | filePath :: rest =>
      let '(w1, r) :=
        processFile js codec relative filePath rIndex propFilter from to
          useRegex regex notify w in
      let '(w2, rs) :=
        runJobs rest rIndex propFilter from to useRegex regex notify w1 in
      (w2, r :: rs)
  end.

(** The loop over [fileResults]: the totals and the error lines. *)
Fixpoint settle (fileResults : list (unit + FileResult)) (totals : nat * nat)
  (lines : list ConsoleLine) : nat * nat * list ConsoleLine :=
  match fileResults with
  | [] => (totals, lines)
  | inr r :: rest =>
      settle rest
        (fst totals + filesChanged r, snd totals + stringsChanged r) lines
  | inl _ :: rest => settle rest totals (lines ++ [LineErrorProcessingFile])
  end.

Definition say (w : World (Bytes codec)) (l : ConsoleLine)
  : World (Bytes codec) :=
  {| files := files w; ops := ops w; console := console w ++ [l] |}.

(** The [for (let rIndex = 0; rIndex < rules.length; rIndex++)] loop, from
    rule [rIndex] on, with the totals so far. *)
Fixpoint forRules (rules : list ReplacementRule) (rIndex : nat)
  (totals : nat * nat) (w : World (Bytes codec))
  : World (Bytes codec) * Outcome :=
  match rules with
  | [] => (say w (LineDone (fst totals) (snd totals)),
           Done (fst totals) (snd totals))
  | rule :: rest =>
      let propFilter := rule_property rule in
      let from := orEmpty (rule_from rule) in
      let to := orEmpty (rule_to rule) in
      let useRegex := isTrue (rule_regex rule) in
      let notify :=
        isTrue (match rule_notify rule with
                | Some n => Some n
                | None => cfgNotify
                end) in
      if missingRequired rule then
        (say w (LineRequiredFields (rIndex + 1)), Exit 1)
      else
        let compiled := if useRegex then compileRule rule else None in
        match useRegex, compiled with
        | true, None => (say w (LineInvalidRegex (rIndex + 1)), Exit 1)
        | _, regex =>
            let filePaths := fg (files w) (orEmpty (rule_path rule)) in
            match filePaths with
            | [] => forRules rest (S rIndex) totals w
            | _ =>
                let '(w1, fileResults) :=
                  runJobs filePaths rIndex propFilter from to useRegex regex
                    notify w in
                let '(totals', lines) := settle fileResults totals [] in
                forRules rest (S rIndex) totals'
                  {| files := files w1; ops := ops w1;
                     console := console w1 ++ lines |}
            end
        end
  end.

(** [main] after the argument is parsed: the rules are [cfg.rules], or the
    configuration itself as the only rule. *)
Definition main (rules : list ReplacementRule) (w : World (Bytes codec))
  : World (Bytes codec) * Outcome :=
  forRules rules 0 (0, 0) w.

End Main.

(* ================================================================== *)
(** ** The adaptive concurrency controller *)
(* ================================================================== *)

(** The comparison [x < y] of two numbers. *)
Definition Qltb (x y : Q) : bool :=
  (Qnum x * Zpos (Qden y) <? Qnum y * Zpos (Qden x))%Z.

(** The fields of [AdaptiveConcurrencyController] that the tuning reads and
    writes.  The two limits are numbers: [main] hands the constructor
    whatever positive number the configuration gives, [2.5] as well as [8].
    The queue of pending closures belongs to the promise plumbing of [run]
    and [processQueue] and is not part of this state. *)
Record AdaptiveConcurrencyController := {
  maxConcurrency : Q;
  currentConcurrency : Q;
  activeTasks : Z;
  recentTimes : list Z;
  maxTimeHistory : nat;
  adjustmentInterval : Z;
  completedSinceAdjust : Z
}.

(** [new AdaptiveConcurrencyController(initialConcurrency)]; [Math.max],
    [Math.min] and [Math.floor] are [Qmax], [Qmin] and [Qfloor]. *)
Definition newController (initialConcurrency : Q) : AdaptiveConcurrencyController :=
  {| maxConcurrency := Qmax 1 initialConcurrency;
     currentConcurrency := Qmax 1 (inject_Z (Qfloor (initialConcurrency / 2)));
     activeTasks := 0;
     recentTimes := [];
     maxTimeHistory := 10;
     adjustmentInterval := 5;
     completedSinceAdjust := 0 |}.

(** [xs.reduce((a, b) => a + b, 0)]. *)
Definition sum (xs : list Z) : Z := fold_left Z.add xs 0%Z.

(** [xs.slice(-n)]. *)
Definition sliceLast (n : nat) (xs : list Z) : list Z :=
  skipn (List.length xs - n) xs.

(** [avgTime]: the mean of the whole history.  The source computes both
    means and the two thresholds in doubles; here they are exact.  An
    adjustment made by [recordCompletion] sees a history of 5 or 10 whole
    numbers; for durations below [2 ^ 40] a threshold that is met exactly
    is met by numbers a double holds, and one that is not is missed by at
    least 1/75, far more than the rounding of the doubles. *)
Definition avgTime (times : list Z) : Q :=
  (inject_Z (sum times) / inject_Z (Z.of_nat (List.length times)))%Q.

(** [recentAvg]: the mean of the last three durations. *)
Definition recentAvg (times : list Z) : Q :=
  (inject_Z (sum (sliceLast 3 times)) / 3)%Q.

Definition setConcurrency (c : AdaptiveConcurrencyController) (n : Q)
  : AdaptiveConcurrencyController :=
  {| maxConcurrency := maxConcurrency c;
     currentConcurrency := n;
     activeTasks := activeTasks c;
     recentTimes := recentTimes c;
     maxTimeHistory := maxTimeHistory c;
     adjustmentInterval := adjustmentInterval c;
     completedSinceAdjust := completedSinceAdjust c |}.

(** [adjustConcurrency]. *)
Definition adjustConcurrency (c : AdaptiveConcurrencyController)
  : AdaptiveConcurrencyController :=
  if (List.length (recentTimes c) <? 3)%nat then c
  else
    let avg := avgTime (recentTimes c) in
    let recent := recentAvg (recentTimes c) in
    if Qltb recent (avg * (8 # 10)) &&
       Qltb (currentConcurrency c) (maxConcurrency c)
    then setConcurrency c
           (Qmin (maxConcurrency c) (currentConcurrency c + 1))
    else if Qltb (avg * (12 # 10)) recent &&
            Qltb 1 (currentConcurrency c)
    then setConcurrency c (Qmax 1 (currentConcurrency c - 1))
    else c.

(** The first half of [recordCompletion]: the duration is pushed, the
    oldest one is shifted out beyond [maxTimeHistory], and the counter is
    incremented. *)
Definition pushDuration (c : AdaptiveConcurrencyController) (duration : Z)
  : AdaptiveConcurrencyController :=
  let pushed := recentTimes c ++ [duration] in
  {| maxConcurrency := maxConcurrency c;
     currentConcurrency := currentConcurrency c;
     activeTasks := activeTasks c;
     recentTimes :=
       if (maxTimeHistory c <? List.length pushed)%nat
       then tl pushed else pushed;
     maxTimeHistory := maxTimeHistory c;
     adjustmentInterval := adjustmentInterval c;
     completedSinceAdjust := completedSinceAdjust c + 1 |}.

(** [this.completedSinceAdjust = 0]. *)
Definition resetCompleted (c : AdaptiveConcurrencyController)
  : AdaptiveConcurrencyController :=
  {| maxConcurrency := maxConcurrency c;
     currentConcurrency := currentConcurrency c;
     activeTasks := activeTasks c;
     recentTimes := recentTimes c;
     maxTimeHistory := maxTimeHistory c;
     adjustmentInterval := adjustmentInterval c;
     completedSinceAdjust := 0 |}.

(** [recordCompletion]. *)
Definition recordCompletion (c : AdaptiveConcurrencyController) (duration : Z)
  : AdaptiveConcurrencyController :=
  let c1 := pushDuration c duration in
  if (adjustmentInterval c1 <=? completedSinceAdjust c1)%Z
  then resetCompleted (adjustConcurrency c1)
  else c1.

(** The controller after the completions of a run, oldest first. *)
Definition completions (c : AdaptiveConcurrencyController) (durations : list Z)
  : AdaptiveConcurrencyController :=
  fold_left recordCompletion durations c.

(** The invariant of the working limit. *)
Definition withinLimits (c : AdaptiveConcurrencyController) : Prop :=
  (1 <= currentConcurrency c <= maxConcurrency c)%Q.

(** A whole number. *)
Definition whole (x : Q) : Prop := exists z : Z, (x == inject_Z z)%Q.



(* ================================================================== *)
(** ** The scheduling of the controller: [run] and [processQueue] *)
(* ================================================================== *)

(** The controller with its queue and the tasks in flight.  A task is the
    number under which it was handed to [run].  [running] holds the started
    tasks whose promise is pending; [finishing] those whose [then] or
    [catch] callback has run and whose [finally] callback has not.
    [startedLog] and [released] record, in order, the tasks started and the
    tasks whose [finally] callback has run; the program keeps neither. *)
Record Scheduler := {
  controller : AdaptiveConcurrencyController;
  queue : list nat;
  running : list nat;
  finishing : list nat;
  startedLog : list nat;
  released : list nat
}.

Definition newScheduler (initialConcurrency : Q) : Scheduler :=
  {| controller := newController initialConcurrency;
     queue := []; running := []; finishing := [];
     startedLog := []; released := [] |}.

(** [this.activeTasks = n]. *)
Definition setActive (c : AdaptiveConcurrencyController) (n : Z)
  : AdaptiveConcurrencyController :=
  {| maxConcurrency := maxConcurrency c;
     currentConcurrency := currentConcurrency c;
     activeTasks := n;
     recentTimes := recentTimes c;
     maxTimeHistory := maxTimeHistory c;
     adjustmentInterval := adjustmentInterval c;
     completedSinceAdjust := completedSinceAdjust c |}.

(** The [while] loop of [processQueue] on the pending tasks: the
    controller, the tasks left pending and the tasks started, in order. *)
Fixpoint processQueueFrom (c : AdaptiveConcurrencyController)
  (pending : list nat)
  : AdaptiveConcurrencyController * list nat * list nat :=
  match pending with
  | [] => (c, [], [])
  | task :: rest =>
      if Qltb (inject_Z (activeTasks c)) (currentConcurrency c) then
        let '(c', rest', now) :=
          processQueueFrom (setActive c (activeTasks c + 1)) rest in
        (c', rest', task :: now)
      else (c, pending, [])
  end.

(** [processQueue]. *)
Definition processQueue (s : Scheduler) : Scheduler :=
  let '(c', pending, now) := processQueueFrom (controller s) (queue s) in
  {| controller := c'; queue := pending;
     running := running s ++ now; finishing := finishing s;
     startedLog := startedLog s ++ now; released := released s |}.

(** [run(task)]: the task is pushed and the queue processed. *)
Definition run (s : Scheduler) (task : nat) : Scheduler :=
  processQueue
    {| controller := controller s; queue := queue s ++ [task];
       running := running s; finishing := finishing s;
       startedLog := startedLog s; released := released s |}.

Fixpoint removeFirst (x : nat) (l : list nat) : list nat :=
  match l with
  | [] => []
  | y :: rest => if Nat.eqb x y then rest else y :: removeFirst x rest
  end.

(** The [then] callback of a fulfilled task, or the [catch] callback of a
    rejected one: the duration is recorded.  Only a running task settles. *)
Definition onSettled (s : Scheduler) (task : nat) (duration : Z) : Scheduler :=
  if existsb (Nat.eqb task) (running s) then
    {| controller := recordCompletion (controller s) duration;
       queue := queue s;
       running := removeFirst task (running s);
       finishing := finishing s ++ [task];
       startedLog := startedLog s; released := released s |}
  else s.

(** The [finally] callback: the slot is given back and the queue
    processed.  It follows the task's [then] or [catch] callback. *)
Definition onFinally (s : Scheduler) (task : nat) : Scheduler :=
  if existsb (Nat.eqb task) (finishing s) then
    processQueue
      {| controller :=
           setActive (controller s) (activeTasks (controller s) - 1);
         queue := queue s;
         running := running s;
         finishing := removeFirst task (finishing s);
         startedLog := startedLog s;
         released := released s ++ [task] |}
  else s.

(** What happens to a controller: a call of [run], or a callback of a
    started task. *)
Inductive SchedulerEvent :=
| Submit (task : nat)
| Settle (task : nat) (duration : Z)
| Release (task : nat).

Definition schedulerStep (s : Scheduler) (e : SchedulerEvent) : Scheduler :=
  match e with
  | Submit task => run s task
  | Settle task duration => onSettled s task duration
  | Release task => onFinally s task
  end.

(** The scheduler after a sequence of events, from a fresh controller. *)
Definition schedule (initialConcurrency : Q) (events : list SchedulerEvent)
  : Scheduler :=
  fold_left schedulerStep events (newScheduler initialConcurrency).

(** The tasks handed to [run], in order. *)
Definition submitted (events : list SchedulerEvent) : list nat :=
  flat_map (fun e => match e with Submit task => [task] | _ => [] end) events.

(** The test of [waitAll]: nothing is active and nothing is queued. *)
Definition idle (s : Scheduler) : bool :=
  (activeTasks (controller s) <=? 0)%Z &&
  match queue s with [] => true | _ => false end.

(** What holds of the scheduler after any sequence of events. *)
Definition scheduled (C : Q) (events : list SchedulerEvent) (s : Scheduler)
  : Prop :=
  withinLimits (controller s) /\
  maxConcurrency (controller s) = Qmax 1 C /\
  activeTasks (controller s) =
    Z.of_nat (List.length (running s) + List.length (finishing s)) /\
  Permutation (startedLog s) (running s ++ finishing s ++ released s) /\
  startedLog s ++ queue s = submitted events.

(* ================================================================== *)
(** ** Instances of the collaborators, for concrete runs *)
(* ================================================================== *)

(** A fragment of the regular-expression engine: a pattern that is a
    non-empty word of letters and digits, with the flags ["g"], and a
    template without [$].  [s.replace(r, to)] puts [to] in place of every
    occurrence of the word, found from left to right without overlap. *)
Definition isWordChar (c : ascii) : bool :=
  let n := nat_of_ascii c in
  ((48 <=? n) && (n <=? 57) || (65 <=? n) && (n <=? 90) ||
   (97 <=? n) && (n <=? 122))%nat.

Fixpoint allWordChars (s : string) : bool :=
  match s with
  | EmptyString => true
  | String c rest => isWordChar c && allWordChars rest
  end.

Definition wordRegExp (pattern flags : string) : option string :=
  if (flags =? "g") && negb (pattern =? "") && allWordChars pattern
  then Some pattern else None.

Fixpoint replaceWord (word to : string) (skip : nat) (s : string) : string :=
  match s with
  | EmptyString => EmptyString
  | String c rest =>
      match skip with
      | S k => replaceWord word to k rest
      | O =>
          if prefix word s
          then to ++ replaceWord word to (String.length word - 1) rest
          else String c (replaceWord word to 0 rest)
      end
  end.

Fixpoint occursIn (word s : string) : bool :=
  prefix word s ||
  match s with
  | EmptyString => false
  | String _ rest => occursIn word rest
  end.

Definition wordPatterns : JsRegExp :=
  {| RegExp := string;
     RegExp_new := wordRegExp;
     String_replace := fun r s to => replaceWord r to 0 s;
     RegExp_test := occursIn |}.

(** A codec for files that hold two layouts: the bytes are the tree they
    decode to with the default options and the tree they decode to with
    the Bedrock header; every other option set is refused.  The [Meta] of a
    file is the layout it was read in, and [write] fills that layout.
    Every write of a file resolves. *)
Definition twoLayouts : Deepslate :=
  {| Bytes := (Tree * Tree)%type;
     Meta := bool;
     NbtFile_read := fun b o =>
       match o with
       | None => Some (false, fst b)
       | Some o' =>
           match bedrockHeader o', littleEndian o', compression o' with
           | Some true, None, None => Some (true, snd b)
           | _, _, _ => None
           end
       end;
     NbtFile_write := fun f =>
       Some (if fst f then (NbtCompound [], snd f)
             else (snd f, NbtCompound []));
     fs_writeFile := fun _ _ _ => None |}.

(** The same codec over files that cannot be written: every write throws
    and leaves the file as it was. *)
Definition readOnly : Deepslate :=
  {| Bytes := Bytes twoLayouts;
     Meta := Meta twoLayouts;
     NbtFile_read := NbtFile_read twoLayouts;
     NbtFile_write := NbtFile_write twoLayouts;
     fs_writeFile := fun _ buf _ => Some buf |}.

(** A file matcher under which every pattern matches every file. *)
Definition everyFile {B : Type} (fs : FileSystem B) (pattern : string)
  : list string :=
  map fst fs.

(** A file matcher for patterns without wildcards: the pattern matches
    the file of that path. *)
Definition exactPath {B : Type} (fs : FileSystem B) (pattern : string)
  : list string :=
  filter (fun q => q =? pattern) (map fst fs).

(** *** Documents, files and rules of the concrete runs *)

(** The document of the end-to-end scenario, with one more keyed leaf. *)
Definition facingTree : Tree :=
  NbtCompound
    [("facing", NbtString "west");
     ("direction", NbtString "west");
     ("list", NbtList [NbtString "west"; NbtString "north"])].

(** A document whose leaf contains [west] without being [west]. *)
Definition westwardTree : Tree :=
  NbtCompound [("facing", NbtString "westward")].

(** No callback, for walks whose calls are not looked at. *)
Definition silent : option (string -> string -> string -> ConsoleLine) := None.

(** A file that decodes to an empty compound by default and to a tree with
    one String tag, which is not [west], with the Bedrock header. *)
Definition emptyThenNorth : Bytes twoLayouts :=
  (NbtCompound [], NbtCompound [("name", NbtString "north")]).

(** A file that decodes to a leaf keyed ["direction"] by default and to a
    leaf keyed ["facing"] with the Bedrock header. *)
Definition directionThenFacing : Bytes twoLayouts :=
  (NbtCompound [("direction", NbtString "west")],
   NbtCompound [("facing", NbtString "west")]).

(** A working tree with one file, whose leaf is [west]. *)
Definition oneFile : World (Bytes twoLayouts) :=
  {| files := [("a.nbt", (NbtCompound [("facing", NbtString "west")],
                          NbtCompound []))];
     ops := [];
     console := [] |}.

(** A whole-value rule on every file. *)
Definition westToNorth : ReplacementRule :=
  {| rule_path := Some "**/*.nbt"; rule_property := None;
     rule_from := Some "west"; rule_to := Some "north";
     rule_regex := None; rule_flags := None; rule_notify := None |}.

(** A rule without [to]. *)
Definition missingTo : ReplacementRule :=
  {| rule_path := Some "**/*.nbt"; rule_property := None;
     rule_from := Some "north"; rule_to := None;
     rule_regex := None; rule_flags := None; rule_notify := None |}.

(** A regex rule whose pattern is refused. *)
Definition badPattern : ReplacementRule :=
  {| rule_path := Some "**/*.nbt"; rule_property := None;
     rule_from := Some "("; rule_to := Some "x";
     rule_regex := Some true; rule_flags := None; rule_notify := None |}.

(** The number of writes that resolved among file operations. *)
Definition countWrites {B : Type} (l : list (FileOp B)) : nat :=
  List.length (filter (fun o => match o with OpWrite _ _ => true | _ => false end) l).

(* ================================================================== *)
(** ** Shapes and listings *)
(* ================================================================== *)

(** The shape of a tree: the tree with every String value blanked.  Keys,
    their order, list lengths and the tags that are not strings stay. *)
Fixpoint skeleton (tag : Tree) : Tree :=
  match tag with
  | NbtString _ => NbtString ""
  | NbtCompound entries =>
      NbtCompound (map (fun e => (fst e, skeleton (snd e))) entries)
  | NbtList items => NbtList (map skeleton items)
  | NbtOpaque _ _ => tag
  end.

(** The tree an iteration leaves in place of [child]: a String child gets
    its [leafResult], any other child is what the recursive call made of
    it. *)
Definition childOutcome (js : JsRegExp) (property : option string)
  (from to : string) (useRegex : bool) (regex : option (RegExp js))
  (seg : Segment) (child : Tree) (walked : Tree) : Tree :=
  match child with
  | NbtString v => NbtString (leafResult js property from to useRegex regex seg v)
  | _ => walked
  end.

(** The debug line of a String child: its path joined by [" > "], its
    value, and its mark under the match context. *)
Definition lineOf (js : JsRegExp) (property : option string) (from : string)
  (ctxRegex : option (RegExp js)) (l : StringLeaf) : TagLine :=
  let pathParts := map segmentString (leaf_parent l ++ [leaf_segment l]) in
  {| line_path := join " > " pathParts;
     line_value := leaf_value l;
     line_match := matchMark js property from ctxRegex pathParts (leaf_value l) |}.

(** A working tree with two files whose leaf is [west]. *)
Definition twoFiles : World (Bytes twoLayouts) :=
  {| files := [("a.nbt", (NbtCompound [("facing", NbtString "west")],
                          NbtCompound []));
               ("b.nbt", (NbtCompound [("facing", NbtString "west")],
                          NbtCompound []))];
     ops := [];
     console := [] |}.

(** A whole-value rule on the file [a.nbt]. *)
Definition westToNorthInA : ReplacementRule :=
  {| rule_path := Some "a.nbt"; rule_property := None;
     rule_from := Some "west"; rule_to := Some "north";
     rule_regex := None; rule_flags := None; rule_notify := None |}.

(* ================================================================== *)
(** * Properties of the engine *)
(* ================================================================== *)

Section EngineFacts.

Variable js : JsRegExp.
Variable E : Type.
Variable property : option string.
Variable from to : string.
Variable useRegex : bool.
Variable regex : option (RegExp js).
Variable onReplace : option (string -> string -> string -> E).

Local Abbreviation walk :=
  (replaceStringsDeep js property from to useRegex regex onReplace).
Local Abbreviation step :=
  (visit js property from to useRegex regex onReplace).
Local Abbreviation keysLoop :=
  (forKeys js property from to useRegex regex onReplace).
Local Abbreviation indexLoop :=
  (forIndex js property from to useRegex regex onReplace).
Local Abbreviation allowed := (segmentAllowed property).
Local Abbreviation result := (leafResult js property from to useRegex regex).
Local Abbreviation eventOf := (changeOf js property from to useRegex regex).
Local Abbreviation events := (changeEvents js property from to useRegex regex).

Lemma replaceStringsDeep_compound es ck pp :
  walk (NbtCompound es) ck pp =
  let '(es', changes, calls) := keysLoop pp es in
  (NbtCompound es', changes, calls).
Proof.
  cbn [replaceStringsDeep].
  match goal with
  | |- match ?f es with _ => _ end = _ =>
      assert (Hloop : forall l, f l = keysLoop pp l)
  end.
  { induction l as [|[k child] rest IH]; [reflexivity|].
    cbn [forKeys]. rewrite <- IH. destruct child; reflexivity. }
  rewrite Hloop. reflexivity.
Qed.

Lemma replaceStringsDeep_list ts ck pp :
  walk (NbtList ts) ck pp =
  let '(ts', changes, calls) := indexLoop pp 0 ts in
  (NbtList ts', changes, calls).
Proof.
  cbn [replaceStringsDeep].
  match goal with
  | |- match ?f 0 ts with _ => _ end = _ =>
      assert (Hloop : forall l i, f i l = indexLoop pp i l)
  end.
  { induction l as [|child rest IH]; intro i; [reflexivity|].
    cbn [forIndex]. rewrite <- IH. destruct child; reflexivity. }
  rewrite Hloop. reflexivity.
Qed.

Lemma stringLeaves_list parent ts :
  stringLeaves parent (NbtList ts) = stringLeavesFrom parent 0 ts.
Proof.
  cbn [stringLeaves]. generalize 0.
  induction ts as [|child rest IH]; intro i; [reflexivity|].
  cbn [stringLeavesFrom]. rewrite <- IH. reflexivity.
Qed.

(** The tree a walk leaves behind. *)
Local Abbreviation treeOf r := (fst (fst r)).

Lemma visit_string ok key pp seg v :
  treeOf (step ok key pp seg (NbtString v)) =
  NbtString (if ok then
               match replacement js from to useRegex regex v with
               | Some newVal => newVal
               | None => v
               end
             else v).
Proof.
  unfold visit. destruct ok; [|reflexivity].
  destruct (replacement js from to useRegex regex v); reflexivity.
Qed.

Lemma visit_inner ok key pp seg child :
  (forall v, child <> NbtString v) ->
  step ok key pp seg child = walk child key (pp ++ [seg]).
Proof.
  intro Hns. destruct child; try reflexivity.
  exfalso. eapply Hns. reflexivity.
Qed.

Lemma forKeys_getKey pp es k child :
  getKey es k = Some child ->
  getKey (treeOf (keysLoop pp es)) k =
  Some (treeOf (step (propertyAllowsKey property k) (Some k) pp k child)).
Proof.
  induction es as [|[k' c] rest IH]; cbn [getKey forKeys]; [discriminate|].
  intro H.
  destruct (step (propertyAllowsKey property k') (Some k') pp k' c)
    as [[c' n] calls] eqn:Hc.
  destruct (keysLoop pp rest) as [[rest' m] calls'] eqn:Hrest.
  cbn [fst getKey].
  destruct (k' =? k) eqn:Hk.
  - apply String.eqb_eq in Hk. subst k'. injection H as ->.
    rewrite Hc. reflexivity.
  - apply IH. exact H.
Qed.

Lemma forIndex_nth pp ts : forall i j child,
  nth_error ts j = Some child ->
  nth_error (treeOf (indexLoop pp i ts)) j =
  Some (treeOf (step (propertyAllowsElement property) None pp
                  (indexSegment (i + j)) child)).
Proof.
  induction ts as [|c rest IH]; intros i j child H.
  - destruct j; discriminate.
  - cbn [forIndex].
    destruct (step (propertyAllowsElement property) None pp (indexSegment i) c)
      as [[c' n] calls] eqn:Hc.
    destruct (indexLoop pp (S i) rest) as [[rest' m] calls'] eqn:Hrest.
    cbn [fst]. destruct j as [|j].
    + cbn in H. injection H as ->. rewrite Nat.add_0_r, Hc. reflexivity.
    + cbn [nth_error] in *. specialize (IH (S i) j child H).
      rewrite Hrest in IH. cbn [fst] in IH. rewrite IH.
      replace (S i + j)%nat with (i + S j)%nat by lia. reflexivity.
Qed.

(** A String child keeps its place and takes the value [leafResult] gives. *)
Lemma getChild_string t seg v ck pp :
  getChild t seg = Some (NbtString v) ->
  getChild (treeOf (walk t ck pp)) seg = Some (NbtString (result seg v)).
Proof.
  destruct t as [s|es|ts|ty pl]; destruct seg as [k|i]; try discriminate;
    cbn [getChild]; intro H.
  - rewrite replaceStringsDeep_compound.
    pose proof (forKeys_getKey pp es k _ H) as Hk.
    destruct (keysLoop pp es) as [[es' n] calls]. cbn [fst getChild] in *.
    rewrite Hk, visit_string. reflexivity.
  - rewrite replaceStringsDeep_list.
    pose proof (forIndex_nth pp ts 0 i _ H) as Hi.
    destruct (indexLoop pp 0 ts) as [[ts' n] calls]. cbn [fst getChild] in *.
    rewrite Hi, visit_string. reflexivity.
Qed.

(** Any other child keeps its place and is walked in turn. *)
Lemma getChild_inner t seg child ck pp :
  getChild t seg = Some child ->
  (forall v, child <> NbtString v) ->
  exists ck' pp',
    getChild (treeOf (walk t ck pp)) seg = Some (treeOf (walk child ck' pp')).
Proof.
  destruct t as [s|es|ts|ty pl]; destruct seg as [k|i]; try discriminate;
    cbn [getChild]; intros H Hns.
  - rewrite replaceStringsDeep_compound.
    pose proof (forKeys_getKey pp es k _ H) as Hk.
    destruct (keysLoop pp es) as [[es' n] calls]. cbn [fst getChild] in *.
    rewrite Hk, visit_inner by exact Hns. eauto.
  - rewrite replaceStringsDeep_list.
    pose proof (forIndex_nth pp ts 0 i _ H) as Hi.
    destruct (indexLoop pp 0 ts) as [[ts' n] calls]. cbn [fst getChild] in *.
    rewrite Hi, visit_inner by exact Hns. eauto.
Qed.

Lemma tagAt_string_nil v p t :
  tagAt (NbtString v) p = Some t -> p = [].
Proof. destruct p as [|[k|i] p]; [reflexivity| discriminate | discriminate]. Qed.

(** The value of every String child after the walk. *)
Lemma tagAt_leaf p : forall t seg v ck pp,
  tagAt t (p ++ [seg]) = Some (NbtString v) ->
  tagAt (treeOf (walk t ck pp)) (p ++ [seg]) = Some (NbtString (result seg v)).
Proof.
  induction p as [|s p IH]; intros t seg v ck pp H.
  - cbn [app tagAt] in *.
    destruct (getChild t seg) as [c|] eqn:Hc; [|discriminate].
    injection H as ->.
    rewrite (getChild_string _ _ _ ck pp Hc). reflexivity.
  - cbn [app tagAt] in *.
    destruct (getChild t s) as [c|] eqn:Hc; [|discriminate].
    assert (Hns : forall v', c <> NbtString v').
    { intros v' ->. apply tagAt_string_nil in H. destruct p; discriminate. }
    destruct (getChild_inner _ _ _ ck pp Hc Hns) as (ck' & pp' & Hg).
    rewrite Hg. apply IH. exact H.
Qed.

(** *** Count and events of a walk *)

Local Abbreviation eventsOf ls :=
  (flat_map (fun l => match eventOf l with Some e => [e] | None => [] end) ls).

(** The calls a list of events makes on [onReplace]. *)
Local Abbreviation delivered es :=
  (match onReplace with Some cb => map (deliver cb) es | None => [] end).

Lemma delivered_app (a b : list ChangeEvent) :
  delivered (a ++ b) = delivered a ++ delivered b.
Proof. destruct onReplace; [apply map_app | reflexivity]. Qed.

Lemma visit_events parent seg key child :
  (forall ck parent',
      snd (fst (walk child ck (map segmentString parent'))) =
        List.length (events parent' child) /\
      snd (walk child ck (map segmentString parent')) =
        delivered (events parent' child)) ->
  let r := step (allowed seg) key (map segmentString parent)
             (segmentString seg) child in
  snd (fst r) = List.length (eventsOf (leavesUnder parent seg child)) /\
  snd r = delivered (eventsOf (leavesUnder parent seg child)).
Proof.
  intros IH r. subst r.
  assert (Hrec :
    let r := walk child key (map segmentString parent ++ [segmentString seg]) in
    snd (fst r) = List.length (events (parent ++ [seg]) child) /\
    snd r = delivered (events (parent ++ [seg]) child)).
  { specialize (IH key (parent ++ [seg])). rewrite map_app in IH. exact IH. }
  destruct child as [v|es|ts|ty pl]; try exact Hrec.
  unfold visit, leavesUnder. cbn [flat_map]. unfold changeOf.
  cbn [leaf_segment leaf_value leaf_parent].
  destruct (allowed seg); [|split; [reflexivity | destruct onReplace; reflexivity]].
  destruct (replacement js from to useRegex regex v) as [newVal|].
  - cbn [fst snd app List.length]. split; [reflexivity|].
    unfold report, deliver. destruct onReplace; [|reflexivity].
    cbn [map path oldValue newValue]. rewrite map_app. reflexivity.
  - split; [reflexivity | destruct onReplace; reflexivity].
Qed.

(** The count of a walk is the number of its events, and the calls of
    [onReplace] deliver exactly those events, in their order. *)
Lemma walk_events t : forall ck parent,
  snd (fst (walk t ck (map segmentString parent))) =
    List.length (events parent t) /\
  snd (walk t ck (map segmentString parent)) = delivered (events parent t).
Proof.
  induction t as [v|es IH|ts IH|ty pl] using Tree_ind; intros ck parent.
  - split; [reflexivity | destruct onReplace; reflexivity].
  - rewrite replaceStringsDeep_compound. unfold changeEvents.
    cbn [stringLeaves].
    assert (Hloop :
      snd (fst (keysLoop (map segmentString parent) es)) =
        List.length
          (eventsOf (flat_map (fun e => leavesUnder parent (Key (fst e)) (snd e)) es)) /\
      snd (keysLoop (map segmentString parent) es) =
        delivered
          (eventsOf (flat_map (fun e => leavesUnder parent (Key (fst e)) (snd e)) es))).
    { induction es as [|[k child] rest IHrest].
      - split; [reflexivity | destruct onReplace; reflexivity].
      - inversion IH as [|? ? Hchild Hrest']; subst.
        cbn [forKeys flat_map fst snd].
        pose proof (visit_events parent (Key k) (Some k) child Hchild) as Hv.
        cbn [segmentString segmentAllowed] in Hv.
        destruct (step (propertyAllowsKey property k) (Some k)
                    (map segmentString parent) k child) as [[c' n] calls].
        destruct (IHrest Hrest') as [Hn Hc].
        destruct (keysLoop (map segmentString parent) rest) as [[rest' m] calls'].
        cbn [fst snd] in *. destruct Hv as [Hv1 Hv2].
        rewrite flat_map_app, length_app, delivered_app.
        split; congruence. }
    replace (flat_map
               (fun '(k, child) =>
                  match child with
                  | NbtString v =>
                      [{| leaf_parent := parent; leaf_segment := Key k;
                          leaf_value := v |}]
                  | _ => stringLeaves (parent ++ [Key k]) child
                  end) es)
      with (flat_map (fun e => leavesUnder parent (Key (fst e)) (snd e)) es).
    2:{ apply flat_map_ext. intros [k c]. reflexivity. }
    destruct (keysLoop (map segmentString parent) es) as [[es' n] calls].
    exact Hloop.
  - rewrite replaceStringsDeep_list. unfold changeEvents.
    rewrite stringLeaves_list.
    assert (Hloop : forall i,
      snd (fst (indexLoop (map segmentString parent) i ts)) =
        List.length (eventsOf (stringLeavesFrom parent i ts)) /\
      snd (indexLoop (map segmentString parent) i ts) =
        delivered (eventsOf (stringLeavesFrom parent i ts))).
    { induction ts as [|child rest IHrest]; intro i.
      - split; [reflexivity | destruct onReplace; reflexivity].
      - inversion IH as [|? ? Hchild Hrest']; subst.
        cbn [forIndex stringLeavesFrom].
        pose proof (visit_events parent (Index i) None child Hchild) as Hv.
        cbn [segmentString segmentAllowed] in Hv.
        destruct (step (propertyAllowsElement property) None
                    (map segmentString parent) (indexSegment i) child)
          as [[c' n] calls].
        destruct (IHrest Hrest' (S i)) as [Hn Hc].
        destruct (indexLoop (map segmentString parent) (S i) rest)
          as [[rest' m] calls'].
        cbn [fst snd] in *. destruct Hv as [Hv1 Hv2].
        fold (leavesUnder parent (Index i) child).
        rewrite flat_map_app, length_app, delivered_app.
        split; congruence. }
    specialize (Hloop 0).
    destruct (indexLoop (map segmentString parent) 0 ts) as [[ts' n] calls].
    exact Hloop.
  - split; [reflexivity | destruct onReplace; reflexivity].
Qed.

(** *** A second walk *)

Lemma walk_keeps_kind t ck pp :
  (forall v, t <> NbtString v) ->
  forall v, treeOf (walk t ck pp) <> NbtString v.
Proof.
  intros Hns v. destruct t as [s|es|ts|ty pl].
  - exfalso. eapply Hns. reflexivity.
  - rewrite replaceStringsDeep_compound.
    destruct (keysLoop pp es) as [[es' n] calls]. discriminate.
  - rewrite replaceStringsDeep_list.
    destruct (indexLoop pp 0 ts) as [[ts' n] calls]. discriminate.
  - discriminate.
Qed.

(** A whole-value rule whose [to] is not its [from] finds nothing to
    replace in a value it has produced. *)
Lemma replacement_again v :
  useRegex = false -> from <> to ->
  replacement js from to useRegex regex
    (match replacement js from to useRegex regex v with
     | Some newVal => newVal
     | None => v
     end) = None.
Proof.
  unfold replacement. intros Hu H. rewrite Hu.
  destruct (v =? from) eqn:Hv; [|rewrite Hv; reflexivity].
  destruct (to =? from) eqn:Ht; [|reflexivity].
  apply String.eqb_eq in Ht. congruence.
Qed.

Lemma visit_again ok key pp seg key' pp' seg' child :
  useRegex = false -> from <> to ->
  (forall ck1 pp1 ck2 pp2,
      walk (treeOf (walk child ck1 pp1)) ck2 pp2 =
      (treeOf (walk child ck1 pp1), 0, [])) ->
  step ok key' pp' seg' (treeOf (step ok key pp seg child)) =
  (treeOf (step ok key pp seg child), 0, []).
Proof.
  intros Hs Hd IH. destruct child as [v|es|ts|ty pl].
  - rewrite visit_string. unfold visit at 1.
    destruct ok; [|reflexivity].
    rewrite replacement_again by assumption. reflexivity.
  - rewrite (visit_inner ok key pp seg (NbtCompound es))
      by (intros ?; discriminate).
    rewrite visit_inner by (apply walk_keeps_kind; intros ?; discriminate).
    apply IH.
  - rewrite (visit_inner ok key pp seg (NbtList ts))
      by (intros ?; discriminate).
    rewrite visit_inner by (apply walk_keeps_kind; intros ?; discriminate).
    apply IH.
  - reflexivity.
Qed.

(** For a whole-value rule whose [to] is not its [from], a walk over the
    tree a walk has left finds nothing to replace. *)
Lemma walk_again t :
  useRegex = false -> from <> to ->
  forall ck1 pp1 ck2 pp2,
    walk (treeOf (walk t ck1 pp1)) ck2 pp2 = (treeOf (walk t ck1 pp1), 0, []).
Proof.
  intros Hu Hd. apply Bool.not_true_iff_false in Hu.
  induction t as [v|es IH|ts IH|ty pl] using Tree_ind; intros ck1 pp1 ck2 pp2.
  - reflexivity.
  - rewrite (replaceStringsDeep_compound es).
    assert (Hloop :
      keysLoop pp2 (treeOf (keysLoop pp1 es)) = (treeOf (keysLoop pp1 es), 0, [])).
    { induction es as [|[k child] rest IHrest]; [reflexivity|].
      inversion IH as [|? ? Hchild Hrest']; subst. cbn [forKeys].
      pose proof (visit_again (propertyAllowsKey property k) (Some k) pp1 k
                    (Some k) pp2 k child
                    (proj1 (Bool.not_true_iff_false _) Hu) Hd Hchild) as Hv.
      destruct (step (propertyAllowsKey property k) (Some k) pp1 k child)
        as [[c' n] calls].
      specialize (IHrest Hrest').
      destruct (keysLoop pp1 rest) as [[rest' m] calls'].
      cbn [fst snd forKeys] in *. rewrite Hv, IHrest. reflexivity. }
    destruct (keysLoop pp1 es) as [[es' n] calls]. cbn [fst] in *.
    rewrite replaceStringsDeep_compound, Hloop. reflexivity.
  - rewrite (replaceStringsDeep_list ts).
    assert (Hloop : forall i j,
      indexLoop pp2 j (treeOf (indexLoop pp1 i ts)) =
      (treeOf (indexLoop pp1 i ts), 0, [])).
    { induction ts as [|child rest IHrest]; intros i j; [reflexivity|].
      inversion IH as [|? ? Hchild Hrest']; subst. cbn [forIndex].
      pose proof (visit_again (propertyAllowsElement property) None pp1
                    (indexSegment i) None pp2 (indexSegment j) child
                    (proj1 (Bool.not_true_iff_false _) Hu) Hd Hchild)
        as Hv.
      destruct (step (propertyAllowsElement property) None pp1
                  (indexSegment i) child) as [[c' n] calls].
      specialize (IHrest Hrest' (S i) (S j)).
      destruct (indexLoop pp1 (S i) rest) as [[rest' m] calls'].
      cbn [fst snd forIndex] in *. rewrite Hv, IHrest. reflexivity. }
    specialize (Hloop 0 0).
    destruct (indexLoop pp1 0 ts) as [[ts' n] calls]. cbn [fst] in *.
    rewrite replaceStringsDeep_list, Hloop. reflexivity.
  - reflexivity.
Qed.

End EngineFacts.

(* ================================================================== *)
(** * The claims on the engine *)
(* ================================================================== *)

(** C1. Under a rule without pattern matching, an eligible String child is
    given the value [to] exactly when its whole value is [from]: a value
    equal to [from] becomes [to], every other value stays as it is, also
    when it contains [from] as a substring; the child is an event of the
    walk exactly when its value is [from]. *)
Theorem whole_value_match (js : JsRegExp) (E : Type)
  (property : option string) (from to : string)
  (regex : option (RegExp js))
  (onReplace : option (string -> string -> string -> E))
  (t : Tree) (p : list Segment) (seg : Segment) (v : string)
  (ck : option string) (pp : list string)
  (Hleaf : tagAt t (p ++ [seg]) = Some (NbtString v))
  (Hallowed : segmentAllowed property seg = true) :
  let t' :=
    fst (fst (replaceStringsDeep js property from to false regex onReplace
                t ck pp)) in
  (v = from -> tagAt t' (p ++ [seg]) = Some (NbtString to)) /\
  (v <> from -> tagAt t' (p ++ [seg]) = Some (NbtString v)) /\
  (forall pre post,
      v = (pre ++ from ++ post)%string -> v <> from ->
      tagAt t' (p ++ [seg]) = Some (NbtString v)) /\
  (changeOf js property from to false regex
     {| leaf_parent := p; leaf_segment := seg; leaf_value := v |} =
   if v =? from
   then Some {| path := p ++ [seg]; oldValue := v; newValue := to |}
   else None).
Proof.
  intro t'. subst t'.
  pose proof (tagAt_leaf js E property from to false regex onReplace
                p t seg v ck pp Hleaf) as H.
  unfold leafResult, replacement in H. rewrite Hallowed in H.
  unfold changeOf, replacement. cbn [leaf_segment leaf_value leaf_parent].
  rewrite Hallowed.
  destruct (v =? from) eqn:Hv.
  - apply String.eqb_eq in Hv. subst v.
    repeat split; try (intros; exact H); intros; congruence.
  - apply String.eqb_neq in Hv.
    repeat split; try (intros; exact H); intros; congruence.
Qed.



(** C9, as amended. For a whole-value rule whose [to] differs from its
    [from], a second walk over the output of the first replaces nothing,
    reports nothing and leaves the tree as it is. *)
Theorem second_walk_changes_nothing (js : JsRegExp) (E : Type)
  (property : option string) (from to : string)
  (regex : option (RegExp js))
  (onReplace : option (string -> string -> string -> E))
  (t : Tree) (ck1 ck2 : option string) (pp1 pp2 : list string)
  (Hdiffer : from <> to) :
  let t1 :=
    fst (fst (replaceStringsDeep js property from to false regex onReplace
                t ck1 pp1)) in
  replaceStringsDeep js property from to false regex onReplace t1 ck2 pp2 =
  (t1, 0, []).
Proof.
  intro t1. subst t1. apply walk_again; [reflexivity | exact Hdiffer].
Qed.

(** C10. A walk started on a String tag returns zero and leaves the tag as
    it is, whatever the rule; every change event of a tree has a parent,
    that is a path of at least one segment. *)
Theorem root_string_untouched (js : JsRegExp) (E : Type)
  (property : option string) (from to : string) (useRegex : bool)
  (regex : option (RegExp js))
  (onReplace : option (string -> string -> string -> E))
  (v : string) (ck : option string) (pp : list string) :
  replaceStringsDeep js property from to useRegex regex onReplace
    (NbtString v) ck pp = (NbtString v, 0, []) /\
  changeEvents js property from to useRegex regex [] (NbtString v) = [] /\
  (forall t e,
      In e (changeEvents js property from to useRegex regex [] t) ->
      path e <> []).
Proof.
  repeat split.
  intros t e He. unfold changeEvents in He.
  apply in_flat_map in He. destruct He as (l & _ & He).
  unfold changeOf in He.
  destruct (segmentAllowed property (leaf_segment l)); [|destruct He].
  destruct (replacement js from to useRegex regex (leaf_value l));
    [|destruct He].
  destruct He as [<-|[]]. cbn [path].
  destruct (leaf_parent l); discriminate.
Qed.

(* ================================================================== *)
(** * Properties of the dispatcher and of [processFile] *)
(* ================================================================== *)

Section FileFacts.

Variable js : JsRegExp.
Variable codec : Deepslate.
Variable relative : string -> string.

(** The listing counts every String tag, whatever the match context. *)
Lemma logAllStringTags_count property from ctxRegex t : forall pp,
  fst (logAllStringTags js property from ctxRegex t pp) = countStrings t.
Proof.
  induction t as [v|es IH|ts IH|ty pl] using Tree_ind; intro pp.
  - reflexivity.
  - cbn [logAllStringTags countStrings].
    induction es as [|[k child] rest IHrest]; [reflexivity|].
    inversion IH as [|? ? Hchild Hrest]; subst.
    specialize (IHrest Hrest). specialize (Hchild (pp ++ [k])).
    cbn [snd] in Hchild.
    destruct (logAllStringTags js property from ctxRegex child (pp ++ [k]))
      as [n ls].
    match type of IHrest with fst ?X = _ => destruct X as [m ls'] end.
    cbn [fst] in *. subst n m. reflexivity.
  - cbn [logAllStringTags countStrings].
    match goal with
    | |- fst (?f 0 ts) = _ =>
        assert (Hloop : forall i, fst (f i ts) = list_sum (map countStrings ts));
        [|apply Hloop]
    end.
    induction ts as [|child rest IHrest]; intro i; [reflexivity|].
    inversion IH as [|? ? Hchild Hrest]; subst.
    specialize (IHrest Hrest (S i)).
    specialize (Hchild (pp ++ [indexSegment i])).
    destruct (logAllStringTags js property from ctxRegex child
                (pp ++ [indexSegment i])) as [n ls].
    match type of IHrest with fst ?X = _ => destruct X as [m ls'] end.
    cbn [fst] in *. subst n m. reflexivity.
  - reflexivity.
Qed.

(** The retry loop settles on the first file read that holds a String tag. *)
Lemma reparse_find property from ctxRegex buf l :
  reparse js codec property from ctxRegex buf l =
  find (hasString codec) (reads codec buf l).
Proof.
  induction l as [|strat rest IH]; [reflexivity|].
  cbn [reparse reads flat_map].
  destruct (NbtFile_read codec buf (opts strat)) as [tmp|]; [|exact IH].
  cbn [app find]. unfold hasString at 1.
  rewrite logAllStringTags_count.
  destruct (0 <? countStrings (snd tmp))%nat; [reflexivity | exact IH].
Qed.

End FileFacts.

(** C6, as amended. The listing that decides the escalation counts every
    String tag of the accepted tree, whatever the rule's filter and
    pattern.  When the accepted tree holds a String tag it is the tree of
    the replacement phase; when it holds none, the retry strategies are
    read in their order and the first file that holds a String tag,
    matching or not, takes its place; when no retry strategy yields one,
    the accepted tree stays. *)
Theorem escalation (js : JsRegExp) (codec : Deepslate)
  (filePath : string) (propFilter : option string) (from : string)
  (useRegex : bool) (regex : option (RegExp js))
  (buf : Bytes codec) (accepted : Meta codec * Tree)
  (Haccepted :
     firstRead codec buf (attempts (toLowerCase filePath)) = Some accepted) :
  fst (logAllStringTags js propFilter from
         (if useRegex then regex else None) (snd accepted) []) =
    countStrings (snd accepted) /\
  (0 < countStrings (snd accepted) ->
   parse js codec filePath propFilter from useRegex regex buf = Some accepted) /\
  (countStrings (snd accepted) = 0 ->
   parse js codec filePath propFilter from useRegex regex buf =
   Some match find (hasString codec) (reads codec buf retryStrategies) with
        | Some tmp => tmp
        | None => accepted
        end).
Proof.
  split; [apply logAllStringTags_count|].
  unfold parse. rewrite Haccepted, logAllStringTags_count, reparse_find.
  split; intro H.
  - destruct (countStrings (snd accepted) =? 0)%nat eqn:Hz; [|reflexivity].
    apply Nat.eqb_eq in Hz. lia.
  - rewrite H. cbn [Nat.eqb].
    destruct (find (hasString codec) (reads codec buf retryStrategies));
      reflexivity.
Qed.


(* ================================================================== *)
(** * Properties of the rule loop *)
(* ================================================================== *)

Section MainFacts.

Variable js : JsRegExp.
Variable codec : Deepslate.
Variable relative : string -> string.
Variable fg : FileSystem (Bytes codec) -> string -> list string.
Variable cfgNotify : option bool.

Local Abbreviation loop := (forRules js codec relative fg cfgNotify).

(** The loop stops at the first offending rule, in the world the rules
    before it have left. *)
Lemma forRules_offending bad after : forall before rIndex totals w,
  Forall (fun r => offending js r = false) before ->
  offending js bad = true ->
  exists w1 a b line,
    loop before rIndex totals w = (say codec w1 (LineDone a b), Done a b) /\
    loop (before ++ bad :: after) rIndex totals w = (say codec w1 line, Exit 1) /\
    (line = LineRequiredFields (rIndex + List.length before + 1) \/
     line = LineInvalidRegex (rIndex + List.length before + 1)).
Proof.
  induction before as [|rule rest IH]; intros rIndex totals w Hok Hbad.
  - exists w, (fst totals), (snd totals). cbn [app forRules List.length].
    rewrite Nat.add_0_r. unfold offending in Hbad.
    destruct (missingRequired bad) eqn:Hm.
    + eexists. split; [reflexivity|]. split; [reflexivity|]. left. reflexivity.
    + cbn [orb] in Hbad. apply andb_true_iff in Hbad. destruct Hbad as [Hr Hc].
      rewrite Hr. destruct (compileRule js bad); [discriminate|].
      eexists. split; [reflexivity|]. split; [reflexivity|]. right. reflexivity.
  - inversion Hok as [|? ? Hrule Hrest]; subst.
    unfold offending in Hrule. apply orb_false_iff in Hrule.
    destruct Hrule as [Hm Hc].
    cbn [app forRules List.length]. rewrite Hm.
    replace (rIndex + S (List.length rest) + 1)
      with (S rIndex + List.length rest + 1) by lia.
    destruct (isTrue (rule_regex rule)) eqn:Hr.
    + destruct (compileRule js rule) as [r|]; [|discriminate].
      destruct (fg (files w) (orEmpty (rule_path rule))) as [|f fs].
      * apply IH; assumption.
      * destruct (runJobs js codec relative (f :: fs) rIndex
                    (rule_property rule) (orEmpty (rule_from rule))
                    (orEmpty (rule_to rule)) true (Some r) _ w)
          as [w1 fileResults].
        destruct (settle fileResults totals []) as [totals' lines].
        apply IH; assumption.
    + destruct (fg (files w) (orEmpty (rule_path rule))) as [|f fs].
      * apply IH; assumption.
      * destruct (runJobs js codec relative (f :: fs) rIndex
                    (rule_property rule) (orEmpty (rule_from rule))
                    (orEmpty (rule_to rule)) false None _ w)
          as [w1 fileResults].
        destruct (settle fileResults totals []) as [totals' lines].
        apply IH; assumption.
Qed.

End MainFacts.

(** C3, as amended. The rules are validated one at a time, each when the
    loop reaches it.  At the first rule that misses a required field, or
    whose pattern and flags do not compile, the run exits with code 1: the
    files and the file operations are those the rules before it have left,
    so no file is read or written for the offending rule or for a rule
    after it, and none at all when the offending rule is the first. *)
Theorem exit_at_first_offending_rule (js : JsRegExp) (codec : Deepslate)
  (relative : string -> string)
  (fg : FileSystem (Bytes codec) -> string -> list string)
  (cfgNotify : option bool)
  (before : list ReplacementRule) (bad : ReplacementRule)
  (after : list ReplacementRule) (w : World (Bytes codec))
  (Hbefore : Forall (fun r => offending js r = false) before)
  (Hbad : offending js bad = true) :
  let alone := main js codec relative fg cfgNotify before w in
  let whole := main js codec relative fg cfgNotify (before ++ bad :: after) w in
  snd whole = Exit 1 /\
  files (fst whole) = files (fst alone) /\
  ops (fst whole) = ops (fst alone) /\
  (before = [] -> files (fst whole) = files w /\ ops (fst whole) = ops w).
Proof.
  intros alone whole. subst alone whole. unfold main.
  destruct (forRules_offending js codec relative fg cfgNotify bad after
              before 0 (0, 0) w Hbefore Hbad)
    as (w1 & a & b & line & Halone & Hwhole & _).
  rewrite Halone, Hwhole. cbn [fst snd say files ops].
  split; [reflexivity|]. split; [reflexivity|]. split; [reflexivity|].
  intros ->. cbn in Halone. inversion Halone. split; congruence.
Qed.

(* ================================================================== *)
(** * Properties of the controller *)
(* ================================================================== *)

Lemma Qltb_lt (x y : Q) : Qltb x y = true <-> (x < y)%Q.
Proof. unfold Qltb, Qlt. apply Z.ltb_lt. Qed.

Lemma Qltb_ge (x y : Q) : Qltb x y = false <-> (y <= x)%Q.
Proof. unfold Qltb, Qle. apply Z.ltb_ge. Qed.

Lemma Qltb_spec (x y : Q) : BoolSpec (x < y)%Q (y <= x)%Q (Qltb x y).
Proof.
  destruct (Qltb x y) eqn:H; constructor;
    [apply Qltb_lt | apply Qltb_ge]; exact H.
Qed.

Lemma Qmax_cases (x y : Q) :
  ((x < y)%Q /\ Qmax x y = y) \/ ((y <= x)%Q /\ Qmax x y = x).
Proof.
  unfold Qmax, GenericMinMax.gmax.
  destruct (Qcompare_spec x y) as [H|H|H].
  - right. split; [rewrite H; apply Qle_refl | reflexivity].
  - left. split; [exact H | reflexivity].
  - right. split; [apply Qlt_le_weak, H | reflexivity].
Qed.

Lemma Qmin_cases (x y : Q) :
  ((y < x)%Q /\ Qmin x y = y) \/ ((x <= y)%Q /\ Qmin x y = x).
Proof.
  unfold Qmin, GenericMinMax.gmin.
  destruct (Qcompare_spec x y) as [H|H|H].
  - right. split; [rewrite H; apply Qle_refl | reflexivity].
  - right. split; [apply Qlt_le_weak, H | reflexivity].
  - left. split; [exact H | reflexivity].
Qed.

Lemma Qmax_inject (a b : Z) :
  Qmax (inject_Z a) (inject_Z b) = inject_Z (Z.max a b).
Proof.
  destruct (Qmax_cases (inject_Z a) (inject_Z b)) as [[H ->] | [H ->]].
  - rewrite <- Zlt_Qlt in H. rewrite Z.max_r by lia. reflexivity.
  - rewrite <- Zle_Qle in H. rewrite Z.max_l by lia. reflexivity.
Qed.

Lemma Qfloor_half (z : Z) : Qfloor (inject_Z z / 2) = (z / 2)%Z.
Proof.
  unfold Qfloor, Qdiv, Qmult, Qinv, inject_Z. cbn.
  rewrite Z.mul_1_r. reflexivity.
Qed.









(** [adjustConcurrency] writes [currentConcurrency] only. *)
Lemma adjustConcurrency_frame c :
  maxConcurrency (adjustConcurrency c) = maxConcurrency c /\
  recentTimes (adjustConcurrency c) = recentTimes c /\
  maxTimeHistory (adjustConcurrency c) = maxTimeHistory c /\
  adjustmentInterval (adjustConcurrency c) = adjustmentInterval c /\
  completedSinceAdjust (adjustConcurrency c) = completedSinceAdjust c.
Proof.
  unfold adjustConcurrency.
  destruct (List.length (recentTimes c) <? 3)%nat; [repeat split|].
  destruct (_ && _); [repeat split|].
  destruct (_ && _); repeat split.
Qed.

(** The limit an adjustment leaves: the old one, the raised one or the
    lowered one. *)
Lemma adjustConcurrency_limit c :
  let cur := currentConcurrency c in
  let cur' := currentConcurrency (adjustConcurrency c) in
  cur' = cur \/
  ((cur < maxConcurrency c)%Q /\ cur' = Qmin (maxConcurrency c) (cur + 1)) \/
  ((1 < cur)%Q /\ cur' = Qmax 1 (cur - 1)).
Proof.
  cbn zeta. unfold adjustConcurrency.
  destruct (List.length (recentTimes c) <? 3)%nat; [left; reflexivity|].
  destruct (Qltb (recentAvg (recentTimes c)) _); cbn [andb].
  - destruct (Qltb_spec (currentConcurrency c) (maxConcurrency c)).
    + right. left. split; [assumption | reflexivity].
    + destruct (Qltb _ (recentAvg (recentTimes c))); cbn [andb];
        [|left; reflexivity].
      destruct (Qltb_spec 1 (currentConcurrency c)); [|left; reflexivity].
      right. right. split; [assumption | reflexivity].
  - destruct (Qltb _ (recentAvg (recentTimes c))); cbn [andb];
      [|left; reflexivity].
    destruct (Qltb_spec 1 (currentConcurrency c)); [|left; reflexivity].
    right. right. split; [assumption | reflexivity].
Qed.

Lemma adjustConcurrency_withinLimits c :
  withinLimits c -> withinLimits (adjustConcurrency c).
Proof.
  unfold withinLimits. intro H.
  destruct (adjustConcurrency_frame c) as (-> & _).
  destruct (adjustConcurrency_limit c) as [-> | [[Hlt ->] | [Hgt ->]]];
    [exact H | |].
  - destruct (Qmin_cases (maxConcurrency c) (currentConcurrency c + 1))
      as [[? ->] | [? ->]]; lra.
  - destruct (Qmax_cases 1 (currentConcurrency c - 1))
      as [[? ->] | [? ->]]; lra.
Qed.

Lemma recordCompletion_withinLimits c d :
  withinLimits c -> withinLimits (recordCompletion c d).
Proof.
  intro H. unfold recordCompletion. cbn zeta.
  destruct (_ <=? _)%Z; [|exact H].
  exact (adjustConcurrency_withinLimits (pushDuration c d) H).
Qed.

Lemma completions_snoc c ds d :
  completions c (ds ++ [d]) = recordCompletion (completions c ds) d.
Proof. unfold completions. rewrite fold_left_app. reflexivity. Qed.

Lemma newController_withinLimits C : withinLimits (newController C).
Proof.
  unfold withinLimits, newController. cbn [currentConcurrency maxConcurrency].
  pose proof (Qfloor_le (C / 2)) as Hfloor.
  assert (Hhalf : (C == 2 * (C / 2))%Q) by field.
  revert Hfloor Hhalf. generalize (inject_Z (Qfloor (C / 2))). intro f.
  generalize (C / 2)%Q. intros h Hfloor Hhalf.
  destruct (Qmax_cases 1 f) as [[H1 ->] | [H1 ->]];
  destruct (Qmax_cases 1 C) as [[H2 ->] | [H2 ->]]; lra.
Qed.


Lemma sliceLast_snoc (ds : list Z) (d : Z) :
  sliceLast 10 (ds ++ [d]) =
  let pushed := sliceLast 10 ds ++ [d] in
  if (10 <? List.length pushed)%nat then tl pushed else pushed.
Proof.
  unfold sliceLast. cbn zeta.
  rewrite !length_app, length_skipn. cbn [List.length].
  destruct (Nat.le_gt_cases 10 (List.length ds)) as [Hge|Hlt].
  - replace (10 <? List.length ds - (List.length ds - 10) + 1)%nat with true
      by (symmetry; apply Nat.ltb_lt; lia).
    rewrite skipn_app.
    replace (List.length ds + 1 - 10 - List.length ds)%nat with 0%nat by lia.
    replace (List.length ds + 1 - 10)%nat with (S (List.length ds - 10)) by lia.
    cbn [skipn].
    assert (Hlen : (List.length ds - 10 < List.length ds)%nat) by lia.
    revert Hlen. generalize (List.length ds - 10)%nat as k. clear Hge.
    induction ds as [|x xs IH]; intros k Hk; [cbn in Hk; lia|].
    destruct k as [|k]; [reflexivity|].
    cbn [skipn List.length] in *. apply IH. lia.
  - replace (10 <? List.length ds - (List.length ds - 10) + 1)%nat with false
      by (symmetry; apply Nat.ltb_ge; lia).
    replace (List.length ds + 1 - 10)%nat with 0%nat by lia.
    replace (List.length ds - 10)%nat with 0%nat by lia. reflexivity.
Qed.

(** What holds of the controller after any run of completions. *)
Lemma completions_state C ds :
  let c := completions (newController C) ds in
  maxTimeHistory c = 10 /\
  adjustmentInterval c = 5%Z /\
  maxConcurrency c = Qmax 1 C /\
  completedSinceAdjust c = Z.of_nat (List.length ds mod 5) /\
  recentTimes c = sliceLast 10 ds.
Proof.
  induction ds as [|d ds IH] using rev_ind; [cbn; repeat split|].
  rewrite completions_snoc. cbn zeta in *.
  destruct IH as (Hh & Hi & Hm & Hn & Ht).
  set (c := completions (newController C) ds) in *.
  rewrite sliceLast_snoc, <- Ht. cbn zeta.
  pose proof (Nat.div_mod_eq (List.length ds) 5) as E1.
  pose proof (Nat.div_mod_eq (List.length (ds ++ [d])) 5) as E2.
  pose proof (Nat.mod_upper_bound (List.length ds) 5 ltac:(lia)) as B1.
  pose proof (Nat.mod_upper_bound (List.length (ds ++ [d])) 5 ltac:(lia)) as B2.
  rewrite length_app in E2, B2 |- *. cbn [List.length] in E2, B2 |- *.
  unfold recordCompletion. cbn zeta.
  destruct (adjustConcurrency_frame (pushDuration c d)) as (F1 & F2 & F3 & F4 & _).
  assert (P1 : maxConcurrency (pushDuration c d) = maxConcurrency c)
    by reflexivity.
  assert (P2 : recentTimes (pushDuration c d) =
               let pushed := recentTimes c ++ [d] in
               if (10 <? List.length pushed)%nat then tl pushed else pushed)
    by (unfold pushDuration; cbn [recentTimes]; rewrite Hh; reflexivity).
  assert (P3 : maxTimeHistory (pushDuration c d) = maxTimeHistory c)
    by reflexivity.
  assert (P4 : adjustmentInterval (pushDuration c d) = adjustmentInterval c)
    by reflexivity.
  assert (P5 : completedSinceAdjust (pushDuration c d) =
               (completedSinceAdjust c + 1)%Z) by reflexivity.
  rewrite P4, P5, Hi, Hn.
  destruct (5 <=? Z.of_nat (List.length ds mod 5) + 1)%Z eqn:Hfire.
  - apply Z.leb_le in Hfire. unfold resetCompleted.
    cbn [maxConcurrency recentTimes maxTimeHistory adjustmentInterval
         completedSinceAdjust].
    rewrite F1, F2, F3, F4, P1, P2, P3, P4.
    repeat split; try assumption. lia.
  - apply Z.leb_gt in Hfire. rewrite P1, P2, P3, P4, P5, Hn.
    repeat split; try assumption. lia.
Qed.

(** Whole numbers: under a whole ceiling the limit is always whole. *)
Lemma whole_Qmax x y : whole x -> whole y -> whole (Qmax x y).
Proof.
  intros Hx Hy. destruct (Qmax_cases x y) as [[_ ->] | [_ ->]]; assumption.
Qed.








(** C5. A controller built for the ceiling [C] starts with the working
    limit [max(1, floor(C / 2))] under the ceiling [max(1, C)]; the limit
    lies between 1 and the ceiling at the start, after every adjustment and
    after every recorded completion, and the ceiling never changes. *)
Theorem limits_hold (C : Q) (c : AdaptiveConcurrencyController) (d : Z)
  (ds : list Z) (Hc : withinLimits c) :
  currentConcurrency (newController C) = Qmax 1 (inject_Z (Qfloor (C / 2))) /\
  maxConcurrency (newController C) = Qmax 1 C /\
  (forall z : Z,
     currentConcurrency (newController (inject_Z z)) =
       inject_Z (Z.max 1 (z / 2)) /\
     maxConcurrency (newController (inject_Z z)) = inject_Z (Z.max 1 z)) /\
  withinLimits (newController C) /\
  withinLimits (adjustConcurrency c) /\
  maxConcurrency (adjustConcurrency c) = maxConcurrency c /\
  withinLimits (recordCompletion c d) /\
  withinLimits (completions c ds) /\
  withinLimits (completions (newController C) ds) /\
  maxConcurrency (completions (newController C) ds) = Qmax 1 C.
Proof.
  pose proof (newController_withinLimits C) as Hnew.
  assert (Hrun : forall c0, withinLimits c0 -> withinLimits (completions c0 ds)).
  { induction ds as [|x xs IH] using rev_ind; intros c0 H0; [exact H0|].
    rewrite completions_snoc. apply recordCompletion_withinLimits, IH, H0. }
  split; [reflexivity|]. split; [reflexivity|].
  split.
  { intro z. unfold newController. cbn [currentConcurrency maxConcurrency].
    rewrite Qfloor_half. split; apply (Qmax_inject 1). }
  split; [exact Hnew|].
  split; [apply adjustConcurrency_withinLimits, Hc|].
  split; [apply adjustConcurrency_frame|].
  split; [apply recordCompletion_withinLimits, Hc|].
  split; [apply Hrun, Hc|].
  split; [apply Hrun, Hnew|].
  apply completions_state.
Qed.

(* ================================================================== *)
(** * Concrete runs *)
(* ================================================================== *)

(** A leaf that only contains [from] is left alone by a whole-value rule. *)
Lemma whole_value_match_witness :
  tagAt
    (fst (fst (replaceStringsDeep wordPatterns None "west" "north" false None
                 silent westwardTree None [])))
    [Key "facing"] = Some (NbtString "westward").
Proof.
  refine (proj1 (proj2
    (whole_value_match wordPatterns ConsoleLine None "west" "north" None silent
       westwardTree [] (Key "facing") "westward" None [] eq_refl eq_refl)) _).
  discriminate.
Defined.




(** The rule [west] to [north] finds nothing in the tree it has left. *)
Lemma second_walk_witness :
  replaceStringsDeep wordPatterns None "west" "north" false None silent
    (fst (fst (replaceStringsDeep wordPatterns None "west" "north" false None
                 silent facingTree None []))) None [] =
  (fst (fst (replaceStringsDeep wordPatterns None "west" "north" false None
               silent facingTree None [])), 0, []).
Proof.
  apply (second_walk_changes_nothing wordPatterns ConsoleLine None "west"
           "north" None silent facingTree None None [] []).
  discriminate.
Defined.

(** C9 as stated fails for patterns: the template [""] does not match the
    pattern [/ab/g], the first walk turns ["aabb"] into ["ab"], and the
    second walk replaces again. *)
Lemma pattern_second_walk_counterexample :
  let regex := RegExp_new wordPatterns (normPattern "ab") "g" in
  let walk := replaceStringsDeep wordPatterns None "ab" "" true regex silent in
  let t := NbtCompound [("name", NbtString "aabb")] in
  let t1 := fst (fst (walk t None [])) in
  regex = Some "ab" /\
  RegExp_test wordPatterns "ab" "" = false /\
  t1 = NbtCompound [("name", NbtString "ab")] /\
  snd (fst (walk t1 None [])) = 1 /\
  fst (fst (walk t1 None [])) = NbtCompound [("name", NbtString "")].
Proof. cbv zeta. repeat split. Qed.

(** The retry settles on the Bedrock reading of [emptyThenNorth]. *)
Lemma escalation_witness :
  parse wordPatterns twoLayouts "a.nbt" None "west" false None emptyThenNorth =
  Some (true, NbtCompound [("name", NbtString "north")]).
Proof.
  exact (proj2 (proj2
    (escalation wordPatterns twoLayouts "a.nbt" None "west" false None
       emptyThenNorth (false, NbtCompound []) eq_refl)) eq_refl).
Defined.

(** C6 as stated fails in both directions.  A retried tree takes the place
    of the accepted one although none of its String tags matches the rule;
    and an accepted tree with no String tag under the rule's filter is kept,
    without any retry, although a retry strategy yields a matching one. *)
Lemma escalation_counterexample :
  let north := NbtCompound [("name", NbtString "north")] in
  parse wordPatterns twoLayouts "a.nbt" None "west" false None emptyThenNorth =
    Some (true, north) /\
  map line_match (snd (logAllStringTags wordPatterns None "west" None north [])) =
    [false] /\
  changeEvents wordPatterns None "west" "north" false None [] north = [] /\
  parse wordPatterns twoLayouts "a.nbt" (Some "facing") "west" false None
    directionThenFacing =
    Some (false, NbtCompound [("direction", NbtString "west")]) /\
  changeEvents wordPatterns (Some "facing") "west" "north" false None []
    (fst directionThenFacing) = [] /\
  map line_match
    (snd (logAllStringTags wordPatterns (Some "facing") "west" None
            (snd directionThenFacing) [])) = [true].
Proof. cbv zeta. repeat split. Qed.


(** The run exits with code 1 at the rule without [to]. *)
Lemma exit_at_first_offending_rule_witness :
  snd (main wordPatterns twoLayouts (fun p => p) everyFile None
         ([westToNorth] ++ missingTo :: [badPattern]) oneFile) = Exit 1.
Proof.
  exact (proj1
    (exit_at_first_offending_rule wordPatterns twoLayouts (fun p => p)
       everyFile None [westToNorth] missingTo [badPattern] oneFile
       (Forall_cons westToNorth (eq_refl false) (Forall_nil _)) eq_refl)).
Defined.

(** C3 as stated fails when a rule precedes the offending one: the run
    exits with code 1 after the file of the first rule has been read and
    rewritten. *)
Lemma earlier_rule_counterexample :
  let r := main wordPatterns twoLayouts (fun p => p) everyFile None
             [westToNorth; missingTo] oneFile in
  snd r = Exit 1 /\
  ops (fst r) =
    [OpRead "a.nbt";
     OpWrite "a.nbt" (NbtCompound [("facing", NbtString "north")],
                      NbtCompound [])] /\
  readFile (files oneFile) "a.nbt" =
    Some (NbtCompound [("facing", NbtString "west")], NbtCompound []) /\
  readFile (files (fst r)) "a.nbt" =
    Some (NbtCompound [("facing", NbtString "north")], NbtCompound []) /\
  offending wordPatterns badPattern = true /\
  snd (main wordPatterns twoLayouts (fun p => p) everyFile None
         [westToNorth; badPattern] oneFile) = Exit 1 /\
  ops (fst (main wordPatterns twoLayouts (fun p => p) everyFile None
              [westToNorth; badPattern] oneFile)) = ops (fst r).
Proof. cbv zeta. repeat split. Qed.



(** A controller that has raised its limit is within its limits, and stays
    so. *)
Lemma limits_hold_witness :
  withinLimits
    (adjustConcurrency
       (completions (newController 4) [100; 100; 10; 10; 10]%Z)).
Proof.
  refine (proj1 (proj2 (proj2 (proj2 (proj2
    (limits_hold 4 (completions (newController 4) [100; 100; 10; 10; 10]%Z)
       0 [] _)))))).
  split; discriminate.
Defined.

(* ================================================================== *)
(** * Further properties of the engine *)
(* ================================================================== *)

Section WalkShape.

Variable js : JsRegExp.
Variable E : Type.
Variable property : option string.
Variable from to : string.
Variable useRegex : bool.
Variable regex : option (RegExp js).
Variable onReplace : option (string -> string -> string -> E).

Local Abbreviation walk :=
  (replaceStringsDeep js property from to useRegex regex onReplace).
Local Abbreviation step :=
  (visit js property from to useRegex regex onReplace).
Local Abbreviation keysLoop :=
  (forKeys js property from to useRegex regex onReplace).
Local Abbreviation indexLoop :=
  (forIndex js property from to useRegex regex onReplace).
Local Abbreviation result := (leafResult js property from to useRegex regex).
Local Abbreviation treeOf r := (fst (fst r)).

Local Abbreviation childResult :=
  (childOutcome js property from to useRegex regex).

Lemma visit_tree seg key pp child :
  treeOf (step (segmentAllowed property seg) key pp (segmentString seg) child) =
  childResult seg child (treeOf (walk child key (pp ++ [segmentString seg]))).
Proof.
  destruct child as [v|es|ts|ty pl]; try reflexivity.
  unfold childOutcome, leafResult. apply visit_string.
Qed.

Lemma forKeys_tree pp es :
  treeOf (keysLoop pp es) =
  map (fun e =>
         (fst e,
          childResult (Key (fst e)) (snd e)
            (treeOf (walk (snd e) (Some (fst e)) (pp ++ [fst e]))))) es.
Proof.
  induction es as [|[k child] rest IH]; [reflexivity|].
  cbn [forKeys map fst snd].
  pose proof (visit_tree (Key k) (Some k) pp child) as Hv.
  cbn [segmentAllowed segmentString] in Hv.
  destruct (step (propertyAllowsKey property k) (Some k) pp k child)
    as [[c' n] calls].
  destruct (keysLoop pp rest) as [[rest' m] calls'].
  cbn [fst snd] in *. rewrite Hv, IH. reflexivity.
Qed.

Lemma forIndex_tree pp ts : forall i,
  treeOf (indexLoop pp i ts) =
  map (fun ic =>
         childResult (Index (fst ic)) (snd ic)
           (treeOf (walk (snd ic) None (pp ++ [indexSegment (fst ic)]))))
    (combine (seq i (List.length ts)) ts).
Proof.
  induction ts as [|child rest IH]; intro i; [reflexivity|].
  cbn [forIndex List.length seq combine map fst snd].
  pose proof (visit_tree (Index i) None pp child) as Hv.
  cbn [segmentAllowed segmentString] in Hv.
  destruct (step (propertyAllowsElement property) None pp (indexSegment i) child)
    as [[c' n] calls].
  specialize (IH (S i)).
  destruct (indexLoop pp (S i) rest) as [[rest' m] calls'].
  cbn [fst snd] in *. rewrite Hv, IH. reflexivity.
Qed.

Lemma skeleton_childResult seg child walked :
  skeleton walked = skeleton child ->
  skeleton (childResult seg child walked) = skeleton child.
Proof. destruct child; intro H; try exact H. reflexivity. Qed.

Lemma walk_skeleton t : forall ck pp,
  skeleton (treeOf (walk t ck pp)) = skeleton t.
Proof.
  induction t as [v|es IH|ts IH|ty pl] using Tree_ind; intros ck pp;
    try reflexivity.
  - rewrite replaceStringsDeep_compound.
    pose proof (forKeys_tree pp es) as Ht.
    destruct (keysLoop pp es) as [[es' n] calls]. cbn [fst] in *. subst es'.
    cbn [skeleton]. f_equal. rewrite map_map. cbn [fst snd].
    apply map_ext_Forall. revert IH. apply Forall_impl. intros [k c] Hc.
    cbn [fst snd] in *. f_equal. apply skeleton_childResult, Hc.
  - rewrite replaceStringsDeep_list.
    pose proof (forIndex_tree pp ts 0) as Ht.
    destruct (indexLoop pp 0 ts) as [[ts' n] calls]. cbn [fst] in *. subst ts'.
    cbn [skeleton]. f_equal. generalize 0.
    induction ts as [|c rest IHrest]; intro i; [reflexivity|].
    inversion IH as [|? ? Hc Hrest]; subst.
    cbn [List.length seq combine map fst snd]. f_equal.
    + apply skeleton_childResult, Hc.
    + apply IHrest, Hrest.
Qed.

Lemma countStrings_skeleton t : countStrings (skeleton t) = countStrings t.
Proof.
  induction t as [v|es IH|ts IH|ty pl] using Tree_ind; try reflexivity.
  - cbn [skeleton countStrings]. rewrite map_map. cbn [snd]. f_equal.
    apply map_ext_Forall. exact IH.
  - cbn [skeleton countStrings]. rewrite map_map. f_equal.
    apply map_ext_Forall. exact IH.
Qed.

(** A walk whose String children all keep their value leaves the tree
    as it is. *)
Lemma walk_fixed t : forall parent ck pp,
  (forall l, In l (stringLeaves parent t) ->
             result (leaf_segment l) (leaf_value l) = leaf_value l) ->
  treeOf (walk t ck pp) = t.
Proof.
  induction t as [v|es IH|ts IH|ty pl] using Tree_ind; intros parent ck pp H;
    try reflexivity.
  - rewrite replaceStringsDeep_compound.
    pose proof (forKeys_tree pp es) as Ht.
    destruct (keysLoop pp es) as [[es' n] calls]. cbn [fst] in *. subst es'.
    f_equal. cbn [stringLeaves] in H.
    induction es as [|[k c] rest IHrest]; [reflexivity|].
    inversion IH as [|? ? Hc Hrest]; subst.
    cbn [map fst snd flat_map] in *. f_equal.
    + f_equal. destruct c as [v|es0|ts0|ty0 pl0]; cbn [childOutcome].
      * f_equal. apply (H {| leaf_parent := parent; leaf_segment := Key k;
                             leaf_value := v |}).
        left. reflexivity.
      * apply (Hc (parent ++ [Key k])). intros l Hl. apply H.
        apply in_or_app. left. exact Hl.
      * apply (Hc (parent ++ [Key k])). intros l Hl. apply H.
        apply in_or_app. left. exact Hl.
      * reflexivity.
    + apply IHrest; [exact Hrest|]. intros l Hl. apply H.
      apply in_or_app. right. exact Hl.
  - rewrite replaceStringsDeep_list.
    pose proof (forIndex_tree pp ts 0) as Ht.
    destruct (indexLoop pp 0 ts) as [[ts' n] calls]. cbn [fst] in *. subst ts'.
    f_equal. rewrite stringLeaves_list in H. revert H. generalize 0.
    induction ts as [|c rest IHrest]; intros i H; [reflexivity|].
    inversion IH as [|? ? Hc Hrest]; subst.
    cbn [List.length seq combine map fst snd stringLeavesFrom] in *. f_equal.
    + destruct c as [v|es0|ts0|ty0 pl0]; cbn [childOutcome].
      * f_equal. apply (H {| leaf_parent := parent; leaf_segment := Index i;
                             leaf_value := v |}).
        left. reflexivity.
      * apply (Hc (parent ++ [Index i])). intros l Hl. apply H.
        apply in_or_app. left. exact Hl.
      * apply (Hc (parent ++ [Index i])). intros l Hl. apply H.
        apply in_or_app. left. exact Hl.
      * reflexivity.
    + apply IHrest; [exact Hrest|]. intros l Hl. apply H.
      apply in_or_app. right. exact Hl.
Qed.

Lemma segmentString_Key pp : map segmentString (map Key pp) = pp.
Proof. rewrite map_map. cbn. apply map_id. Qed.

(** A walk that counts nothing has changed nothing. *)
Lemma walk_zero t ck pp :
  snd (fst (walk t ck pp)) = 0 -> treeOf (walk t ck pp) = t.
Proof.
  intro Hz. apply (walk_fixed t (map Key pp)). intros l Hl.
  destruct (walk_events js E property from to useRegex regex onReplace t ck
              (map Key pp)) as [Hn _].
  rewrite segmentString_Key, Hz in Hn. symmetry in Hn.
  apply length_zero_iff_nil in Hn. unfold changeEvents in Hn.
  unfold leafResult.
  destruct (segmentAllowed property (leaf_segment l)) eqn:Ha; [|reflexivity].
  destruct (replacement js from to useRegex regex (leaf_value l)) as [nv|] eqn:Hr;
    [|reflexivity].
  exfalso.
  assert (Hin : In {| path := leaf_parent l ++ [leaf_segment l];
                      oldValue := leaf_value l; newValue := nv |}
                  (flat_map
                     (fun l0 =>
                        match changeOf js property from to useRegex regex l0 with
                        | Some e => [e]
                        | None => []
                        end) (stringLeaves (map Key pp) t))).
  { apply in_flat_map. exists l. split; [exact Hl|].
    unfold changeOf. rewrite Ha, Hr. left. reflexivity. }
  rewrite Hn in Hin. destruct Hin.
Qed.

End WalkShape.

Section WalkCallbacks.

Variable js : JsRegExp.
Variables E E' : Type.
Variable property : option string.
Variable from to : string.
Variable useRegex : bool.
Variable regex : option (RegExp js).
Variable onReplace : option (string -> string -> string -> E).
Variable onReplace' : option (string -> string -> string -> E').

Local Abbreviation walk :=
  (replaceStringsDeep js property from to useRegex regex onReplace).
Local Abbreviation walk' :=
  (replaceStringsDeep js property from to useRegex regex onReplace').

Lemma visit_same ok key pp seg key' pp' seg' child :
  (forall ck1 pp1 ck2 pp2, fst (walk child ck1 pp1) = fst (walk' child ck2 pp2)) ->
  fst (visit js property from to useRegex regex onReplace ok key pp seg child) =
  fst (visit js property from to useRegex regex onReplace' ok key' pp' seg' child).
Proof.
  intro IH. destruct child as [v|es|ts|ty pl]; try apply IH.
  unfold visit. destruct ok; [|reflexivity].
  destruct (replacement js from to useRegex regex v); reflexivity.
Qed.

(** Tree and count of a walk do not depend on the callback, the path
    handed in or the current key. *)
Lemma walk_same t : forall ck1 pp1 ck2 pp2,
  fst (walk t ck1 pp1) = fst (walk' t ck2 pp2).
Proof.
  induction t as [v|es IH|ts IH|ty pl] using Tree_ind; intros ck1 pp1 ck2 pp2;
    try reflexivity.
  - rewrite !replaceStringsDeep_compound.
    assert (Hloop :
      fst (forKeys js property from to useRegex regex onReplace pp1 es) =
      fst (forKeys js property from to useRegex regex onReplace' pp2 es)).
    { induction es as [|[k c] rest IHrest]; [reflexivity|].
      inversion IH as [|? ? Hc Hrest]; subst. cbn [forKeys].
      pose proof (visit_same (propertyAllowsKey property k) (Some k) pp1 k
                    (Some k) pp2 k c Hc) as Hv.
      destruct (visit js property from to useRegex regex onReplace _ _ pp1 k c)
        as [[c1 n1] l1].
      destruct (visit js property from to useRegex regex onReplace' _ _ pp2 k c)
        as [[c2 n2] l2].
      specialize (IHrest Hrest).
      destruct (forKeys js property from to useRegex regex onReplace pp1 rest)
        as [[r1 m1] k1].
      destruct (forKeys js property from to useRegex regex onReplace' pp2 rest)
        as [[r2 m2] k2].
      cbn [fst snd] in *. congruence. }
    destruct (forKeys js property from to useRegex regex onReplace pp1 es)
      as [[e1 n1] l1].
    destruct (forKeys js property from to useRegex regex onReplace' pp2 es)
      as [[e2 n2] l2].
    cbn [fst] in *. congruence.
  - rewrite !replaceStringsDeep_list.
    assert (Hloop : forall i j,
      fst (forIndex js property from to useRegex regex onReplace pp1 i ts) =
      fst (forIndex js property from to useRegex regex onReplace' pp2 j ts)).
    { induction ts as [|c rest IHrest]; intros i j; [reflexivity|].
      inversion IH as [|? ? Hc Hrest]; subst. cbn [forIndex].
      pose proof (visit_same (propertyAllowsElement property) None pp1
                    (indexSegment i) None pp2 (indexSegment j) c Hc) as Hv.
      destruct (visit js property from to useRegex regex onReplace _ _ pp1
                  (indexSegment i) c) as [[c1 n1] l1].
      destruct (visit js property from to useRegex regex onReplace' _ _ pp2
                  (indexSegment j) c) as [[c2 n2] l2].
      specialize (IHrest Hrest (S i) (S j)).
      destruct (forIndex js property from to useRegex regex onReplace pp1 (S i) rest)
        as [[r1 m1] k1].
      destruct (forIndex js property from to useRegex regex onReplace' pp2 (S j) rest)
        as [[r2 m2] k2].
      cbn [fst snd] in *. congruence. }
    specialize (Hloop 0 0).
    destruct (forIndex js property from to useRegex regex onReplace pp1 0 ts)
      as [[e1 n1] l1].
    destruct (forIndex js property from to useRegex regex onReplace' pp2 0 ts)
      as [[e2 n2] l2].
    cbn [fst] in *. congruence.
Qed.

End WalkCallbacks.

Section ListingFacts.

Variable js : JsRegExp.
Variable property : option string.
Variable from : string.
Variable ctxRegex : option (RegExp js).

Local Abbreviation listing := (logAllStringTags js property from ctxRegex).
Local Abbreviation line := (lineOf js property from ctxRegex).

(** The lines of a child reached under [seg], from the lines of the
    listing below it. *)
Lemma child_lines parent seg child :
  (forall parent',
      (forall v, child <> NbtString v) ->
      snd (listing child (map segmentString parent')) =
      map line (stringLeaves parent' child)) ->
  snd (listing child (map segmentString parent ++ [segmentString seg])) =
  map line (leavesUnder parent seg child).
Proof.
  intro IH.
  assert (Hns : (forall v, child <> NbtString v) ->
                snd (listing child (map segmentString parent ++ [segmentString seg])) =
                map line (stringLeaves (parent ++ [seg]) child)).
  { intro H. specialize (IH (parent ++ [seg]) H). rewrite map_app in IH.
    exact IH. }
  destruct child as [v|es|ts|ty pl];
    try (apply Hns; intros ?; discriminate).
  cbn [logAllStringTags snd leavesUnder map]. unfold lineOf.
  cbn [leaf_parent leaf_segment leaf_value]. rewrite map_app. cbn [map].
  destruct (map segmentString parent ++ [segmentString seg]) eqn:Hp;
    [destruct (map segmentString parent); discriminate | reflexivity].
Qed.

(** Below a compound or a list, the listing has one line per String child,
    in traversal order: its path, its value and its mark. *)
Lemma listing_lines t : forall parent,
  (forall v, t <> NbtString v) ->
  snd (listing t (map segmentString parent)) = map line (stringLeaves parent t).
Proof.
  induction t as [v|es IH|ts IH|ty pl] using Tree_ind; intros parent Hns.
  - exfalso. eapply Hns. reflexivity.
  - clear Hns. cbn [logAllStringTags stringLeaves].
    induction es as [|[k c] rest IHrest]; [reflexivity|].
    inversion IH as [|? ? Hc Hrest]; subst.
    specialize (IHrest Hrest).
    pose proof (child_lines parent (Key k) c Hc) as Hl.
    cbn [segmentString snd] in Hl.
    destruct (listing c (map segmentString parent ++ [k])) as [n ls].
    match type of IHrest with snd ?X = _ => destruct X as [m ls'] end.
    cbn [snd flat_map] in *. rewrite map_app. subst ls ls'. reflexivity.
  - clear Hns. rewrite stringLeaves_list. cbn [logAllStringTags].
    match goal with
    | |- snd (?f 0 ts) = _ =>
        assert (Hloop : forall i,
                   snd (f i ts) = map line (stringLeavesFrom parent i ts));
        [|apply Hloop]
    end.
    induction ts as [|c rest IHrest]; intro i; [reflexivity|].
    inversion IH as [|? ? Hc Hrest]; subst.
    specialize (IHrest Hrest (S i)).
    pose proof (child_lines parent (Index i) c Hc) as Hl.
    cbn [segmentString snd] in Hl.
    destruct (listing c (map segmentString parent ++ [indexSegment i])) as [n ls].
    match type of IHrest with snd ?X = _ => destruct X as [m ls'] end.
    cbn [snd stringLeavesFrom] in *. rewrite map_app.
    fold (leavesUnder parent (Index i) c). subst ls ls'. reflexivity.
  - reflexivity.
Qed.

(** In the listing of a whole-value rule, a String child the walk replaces
    is marked, and a marked child of a compound is one the walk replaces. *)
Lemma mark_and_change to (l : StringLeaf) :
  ctxRegex = None ->
  (changeOf js property from to false None l <> None ->
   line_match (line l) = true) /\
  (forall k, leaf_segment l = Key k -> line_match (line l) = true ->
             changeOf js property from to false None l <> None).
Proof.
  intros ->. unfold lineOf, matchMark, changeOf, replacement, segmentAllowed,
    propertyAllowsKey, propertyAllowsElement.
  cbn [line_match]. rewrite map_app, map_app. cbn [map].
  rewrite last_last.
  destruct l as [parent seg v]. cbn [leaf_parent leaf_segment leaf_value].
  split.
  - destruct seg as [k|i]; cbn [segmentString].
    + destruct (negb (truthy property) ||
                match property with Some p => p =? k | None => false end);
        [|congruence].
      destruct (v =? from); [reflexivity | congruence].
    + destruct (negb (truthy property)); [|congruence].
      destruct (v =? from); [reflexivity | congruence].
  - intros k -> H. cbn [segmentString] in H.
    destruct (negb (truthy property) ||
              match property with Some p => p =? k | None => false end);
      [|discriminate].
    destruct (v =? from); [discriminate | discriminate].
Qed.

End ListingFacts.

Lemma listing_count_lines js property from ctxRegex t : forall pp,
  fst (logAllStringTags js property from ctxRegex t pp) =
  List.length (snd (logAllStringTags js property from ctxRegex t pp)).
Proof.
  induction t as [v|es IH|ts IH|ty pl] using Tree_ind; intro pp;
    try reflexivity.
  - cbn [logAllStringTags].
    induction es as [|[k c] rest IHrest]; [reflexivity|].
    inversion IH as [|? ? Hc Hrest]; subst.
    specialize (IHrest Hrest). specialize (Hc (pp ++ [k])). cbn [snd] in Hc.
    destruct (logAllStringTags js property from ctxRegex c (pp ++ [k]))
      as [n ls].
    match type of IHrest with fst ?X = _ => destruct X as [m ls'] end.
    cbn [fst snd] in *. rewrite length_app. congruence.
  - cbn [logAllStringTags].
    match goal with
    | |- fst (?f 0 ts) = _ =>
        assert (Hloop : forall i, fst (f i ts) = List.length (snd (f i ts)));
        [|apply Hloop]
    end.
    induction ts as [|c rest IHrest]; intro i; [reflexivity|].
    inversion IH as [|? ? Hc Hrest]; subst.
    specialize (IHrest Hrest (S i)). specialize (Hc (pp ++ [indexSegment i])).
    destruct (logAllStringTags js property from ctxRegex c
                (pp ++ [indexSegment i])) as [n ls].
    match type of IHrest with fst ?X = _ => destruct X as [m ls'] end.
    cbn [fst snd] in *. rewrite length_app. congruence.
Qed.

(** X1. A walk keeps the shape of the tree: the same keys in the same
    order, the same list lengths, every tag that is not a String as it was,
    and the same number of String tags. *)
Theorem walk_keeps_shape (js : JsRegExp) (E : Type)
  (property : option string) (from to : string) (useRegex : bool)
  (regex : option (RegExp js))
  (onReplace : option (string -> string -> string -> E))
  (t : Tree) (ck : option string) (pp : list string) :
  let t' :=
    fst (fst (replaceStringsDeep js property from to useRegex regex onReplace
                t ck pp)) in
  skeleton t' = skeleton t /\ countStrings t' = countStrings t.
Proof.
  intro t'. subst t'.
  pose proof (walk_skeleton js E property from to useRegex regex onReplace
                t ck pp) as H.
  split; [exact H|].
  rewrite <- countStrings_skeleton, H. apply countStrings_skeleton.
Qed.

(** X2. A walk that returns zero has left the tree exactly as it was. *)
Theorem zero_count_same_tree (js : JsRegExp) (E : Type)
  (property : option string) (from to : string) (useRegex : bool)
  (regex : option (RegExp js))
  (onReplace : option (string -> string -> string -> E))
  (t : Tree) (ck : option string) (pp : list string)
  (Hzero :
     snd (fst (replaceStringsDeep js property from to useRegex regex onReplace
                 t ck pp)) = 0) :
  fst (fst (replaceStringsDeep js property from to useRegex regex onReplace
              t ck pp)) = t.
Proof. apply walk_zero. exact Hzero. Qed.

(** X3. The tree and the count of a walk are the same with any callback or
    none, from any path and under any current key: reporting does not
    influence replacing. *)
Theorem reporting_does_not_influence (js : JsRegExp) (E E' : Type)
  (property : option string) (from to : string) (useRegex : bool)
  (regex : option (RegExp js))
  (onReplace : option (string -> string -> string -> E))
  (onReplace' : option (string -> string -> string -> E'))
  (t : Tree) (ck ck' : option string) (pp pp' : list string) :
  fst (replaceStringsDeep js property from to useRegex regex onReplace t ck pp) =
  fst (replaceStringsDeep js property from to useRegex regex onReplace' t ck' pp').
Proof. apply walk_same. Qed.

(** X4. A whole-value rule whose [to] is its [from] never changes the
    tree, and it still counts as replaced every eligible String child whose
    value is [from]. *)
Theorem same_value_rule (js : JsRegExp) (E : Type)
  (property : option string) (from : string)
  (regex : option (RegExp js))
  (onReplace : option (string -> string -> string -> E))
  (t : Tree) (ck : option string) (pp : list string) :
  let r :=
    replaceStringsDeep js property from from false regex onReplace t ck pp in
  fst (fst r) = t /\
  snd (fst r) =
    List.length
      (filter (fun l => segmentAllowed property (leaf_segment l) &&
                        (leaf_value l =? from)%string)
         (stringLeaves [] t)).
Proof.
  intro r. subst r. split.
  - apply (walk_fixed js E property from from false regex onReplace t []).
    intros l _. unfold leafResult, replacement.
    destruct (segmentAllowed property (leaf_segment l)); [|reflexivity].
    destruct (leaf_value l =? from) eqn:Hv; [|reflexivity].
    apply String.eqb_eq in Hv. congruence.
  - pose proof (walk_same js E E property from from false regex onReplace
                  onReplace t ck pp ck []) as Hs.
    rewrite Hs.
    destruct (walk_events js E property from from false regex onReplace t ck [])
      as [Hn _].
    cbn [map] in Hn. rewrite Hn. unfold changeEvents.
    induction (stringLeaves [] t) as [|l ls IH]; [reflexivity|].
    cbn [flat_map filter]. rewrite length_app, IH.
    unfold changeOf, replacement.
    destruct (segmentAllowed property (leaf_segment l)); cbn [andb];
      [|reflexivity].
    destruct (leaf_value l =? from); reflexivity.
Qed.

(** X5. The listing of a tree returns the number of lines it prints.  For a
    compound or a list at the root there is one line per String child, in
    depth-first order, with the child's path joined by [" > "]; a String
    tag at the root is listed alone, as ["(root)"]. *)
Theorem listing_of_children (js : JsRegExp) (property : option string)
  (from : string) (ctxRegex : option (RegExp js)) (t : Tree) :
  let r := logAllStringTags js property from ctxRegex t [] in
  fst r = List.length (snd r) /\
  snd r =
  match t with
  | NbtString v =>
      [{| line_path := "(root)"; line_value := v;
          line_match := matchMark js property from ctxRegex [] v |}]
  | _ => map (lineOf js property from ctxRegex) (stringLeaves [] t)
  end.
Proof.
  intro r. subst r. split; [apply listing_count_lines|].
  destruct t as [v|es|ts|ty pl]; [reflexivity| | |reflexivity].
  - apply (listing_lines js property from ctxRegex (NbtCompound es) []).
    intros ?; discriminate.
  - apply (listing_lines js property from ctxRegex (NbtList ts) []).
    intros ?; discriminate.
Qed.

(** X6. In the listing made for a whole-value rule, every String child has
    its line; a child the walk would replace is marked [MATCH], and a
    marked child of a compound is one the walk would replace. *)
Theorem marks_of_whole_value_rule (js : JsRegExp) (property : option string)
  (from to : string) (t : Tree) :
  Forall
    (fun l =>
       In (lineOf js property from None l)
          (snd (logAllStringTags js property from None t [])) /\
       (changeOf js property from to false None l <> None ->
        line_match (lineOf js property from None l) = true) /\
       (forall k, leaf_segment l = Key k ->
                  line_match (lineOf js property from None l) = true ->
                  changeOf js property from to false None l <> None))
    (stringLeaves [] t).
Proof.
  apply Forall_forall. intros l Hl. split.
  - destruct t as [v|es|ts|ty pl]; try (destruct Hl; fail).
    + pose proof (listing_lines js property from None (NbtCompound es) []
                    ltac:(intros ?; discriminate)) as H.
      cbn [map] in H. rewrite H. apply in_map. exact Hl.
    + pose proof (listing_lines js property from None (NbtList ts) []
                    ltac:(intros ?; discriminate)) as H.
      cbn [map] in H. rewrite H. apply in_map. exact Hl.
  - apply mark_and_change. reflexivity.
Qed.

(** A walk that finds nothing returns the document itself. *)
Lemma zero_count_same_tree_witness :
  fst (fst (replaceStringsDeep wordPatterns None "east" "north" false None
              silent facingTree None [])) = facingTree.
Proof.
  apply (zero_count_same_tree wordPatterns ConsoleLine None "east" "north"
           false None silent facingTree None []).
  reflexivity.
Defined.

(* ================================================================== *)
(** * Further properties of the dispatcher and of [processFile] *)
(* ================================================================== *)


Lemma readFile_writeFile_other {B : Type} (fs : FileSystem B) p q b :
  q <> p -> readFile (writeFile fs p b) q = readFile fs q.
Proof.
  intro Hne. induction fs as [|[r b'] rest IH]; cbn [writeFile readFile].
  - destruct (p =? q) eqn:Hpq; [|reflexivity].
    apply String.eqb_eq in Hpq. congruence.
  - destruct (r =? p) eqn:Hr; cbn [readFile].
    + apply String.eqb_eq in Hr. subst r.
      destruct (p =? q) eqn:Hpq; [|reflexivity].
      apply String.eqb_eq in Hpq. congruence.
    + rewrite IH. reflexivity.
Qed.

Lemma writeFile_names {B : Type} (fs : FileSystem B) p b b0 :
  readFile fs p = Some b0 -> map fst (writeFile fs p b) = map fst fs.
Proof.
  induction fs as [|[q b'] rest IH]; cbn [writeFile readFile map fst];
    [discriminate|].
  destruct (q =? p) eqn:Hq; intro H; [reflexivity|].
  cbn [map fst]. f_equal. apply IH, H.
Qed.

Section DispatchFacts.

Variable js : JsRegExp.
Variable codec : Deepslate.
Variable relative : string -> string.

Lemma firstRead_reads buf l :
  firstRead codec buf l = hd_error (reads codec buf l).
Proof.
  induction l as [|a rest IH]; [reflexivity|].
  cbn [firstRead reads flat_map].
  destruct (NbtFile_read codec buf (opts a)); [reflexivity | exact IH].
Qed.

Lemma reads_app buf l1 l2 :
  reads codec buf (l1 ++ l2) = reads codec buf l1 ++ reads codec buf l2.
Proof. apply flat_map_app. Qed.

Lemma parse_none filePath propFilter from useRegex regex buf :
  parse js codec filePath propFilter from useRegex regex buf = None <->
  reads codec buf (attempts (toLowerCase filePath)) = [].
Proof.
  unfold parse. rewrite firstRead_reads.
  destruct (reads codec buf (attempts (toLowerCase filePath))) as [|f fs];
    cbn [hd_error].
  - split; reflexivity.
  - split; [|discriminate].
    destruct (_ =? 0)%nat; [|discriminate].
    destruct (reparse js codec propFilter from _ buf retryStrategies);
      discriminate.
Qed.

Lemma parse_some filePath propFilter from useRegex regex buf nbt :
  parse js codec filePath propFilter from useRegex regex buf = Some nbt ->
  In nbt (reads codec buf (attempts (toLowerCase filePath) ++ retryStrategies)).
Proof.
  unfold parse. rewrite firstRead_reads, reads_app.
  destruct (reads codec buf (attempts (toLowerCase filePath))) as [|f fs];
    cbn [hd_error]; [discriminate|].
  rewrite reparse_find. intro H. apply in_or_app.
  destruct (_ =? 0)%nat.
  - destruct (find (hasString codec) (reads codec buf retryStrategies))
      as [tmp|] eqn:Hf.
    + injection H as <-. right. apply find_some in Hf. apply Hf.
    + injection H as <-. left. left. reflexivity.
  - injection H as <-. left. left. reflexivity.
Qed.

Lemma attempts_auto lower :
  In {| opts := None; label := "auto" |} (attempts lower).
Proof.
  unfold attempts. apply in_or_app. right. apply in_or_app. right.
  left. reflexivity.
Qed.

Lemma reads_in buf l strat f :
  In strat l -> NbtFile_read codec buf (opts strat) = Some f ->
  In f (reads codec buf l).
Proof.
  intros Hin Hr. unfold reads. apply in_flat_map. exists strat.
  split; [exact Hin|]. rewrite Hr. left. reflexivity.
Qed.

(** What [processFile] does once the file is read and parsed. *)
Lemma processFile_parsed filePath rIndex propFilter from to useRegex regex
  (notify : bool) (w : World (Bytes codec)) buf nbtFile :
  readFile (files w) filePath = Some buf ->
  parse js codec filePath propFilter from useRegex regex buf = Some nbtFile ->
  let evs := changeEvents js propFilter from to useRegex regex [] (snd nbtFile) in
  let root' :=
    fst (fst (replaceStringsDeep js propFilter from to useRegex regex silent
                (snd nbtFile) None [])) in
  let lines :=
    if notify then map (deliver (LineReplace (relative filePath))) evs else [] in
  let failure := LineRuleFailed (rIndex + 1) filePath in
  processFile js codec relative filePath rIndex propFilter from to useRegex
    regex notify w =
  if (0 <? List.length evs)%nat then
    match NbtFile_write codec (fst nbtFile, root') with
    | None =>
        ({| files := files w; ops := ops w ++ [OpRead filePath];
            console := console w ++ lines ++ [failure] |},
         inl tt)
    | Some out =>
        match fs_writeFile codec filePath buf out with
        | None =>
            ({| files := writeFile (files w) filePath out;
                ops := ops w ++ [OpRead filePath] ++ [OpWrite filePath out];
                console := console w ++ lines |},
             inr {| filesChanged := 1; stringsChanged := List.length evs |})
        | Some kept =>
            ({| files := writeFile (files w) filePath kept;
                ops := ops w ++ [OpRead filePath] ++
                       [OpWriteFailed filePath out];
                console := console w ++ lines ++ [failure] |},
             inl tt)
        end
    end
  else
    ({| files := files w; ops := ops w ++ [OpRead filePath];
        console := console w ++ lines |},
     inr {| filesChanged := 0; stringsChanged := 0 |}).
Proof.
  intros Hread Hparse evs root' lines failure. subst evs root' lines failure.
  unfold processFile. rewrite Hread, Hparse.
  destruct (walk_events js ConsoleLine propFilter from to useRegex regex
              (onReplaceOf relative notify filePath) (snd nbtFile) None [])
    as [Hn Hc].
  cbn [map] in Hn, Hc.
  pose proof (walk_same js ConsoleLine ConsoleLine propFilter from to useRegex
                regex (onReplaceOf relative notify filePath) silent
                (snd nbtFile) None [] None []) as Hs.
  destruct (replaceStringsDeep js propFilter from to useRegex regex
              (onReplaceOf relative notify filePath) (snd nbtFile) None [])
    as [[root' changed] calls].
  cbn [fst snd] in Hn, Hc, Hs. rewrite <- Hs. cbn [fst]. subst changed calls.
  assert (Hl : match onReplaceOf relative notify filePath with
               | Some cb =>
                   map (deliver cb)
                     (changeEvents js propFilter from to useRegex regex []
                        (snd nbtFile))
               | None => []
               end =
               if notify
               then map (deliver (LineReplace (relative filePath)))
                      (changeEvents js propFilter from to useRegex regex []
                         (snd nbtFile))
               else []) by (destruct notify; reflexivity).
  rewrite Hl.
  destruct (0 <? List.length _)%nat; [|reflexivity].
  destruct (NbtFile_write codec (fst nbtFile, root')) as [out|];
    [destruct (fs_writeFile codec filePath buf out)|];
    cbn [files ops console]; rewrite <- ?app_assoc; reflexivity.
Qed.

(** What [processFile] does when the read or every parse attempt fails. *)
Lemma processFile_failed filePath rIndex propFilter from to useRegex regex
  notify (w : World (Bytes codec)) :
  (readFile (files w) filePath = None \/
   exists buf, readFile (files w) filePath = Some buf /\
               reads codec buf (attempts (toLowerCase filePath)) = []) ->
  processFile js codec relative filePath rIndex propFilter from to useRegex
    regex notify w =
  ({| files := files w; ops := ops w ++ [OpRead filePath];
      console := console w ++ [LineRuleFailed (rIndex + 1) filePath] |},
   inl tt).
Proof.
  unfold processFile. intros [Hr|(buf & Hr & Hp)]; rewrite Hr; [reflexivity|].
  rewrite (proj2 (parse_none filePath propFilter from useRegex regex buf) Hp).
  reflexivity.
Qed.

End DispatchFacts.

Section JobFacts.

Variable js : JsRegExp.
Variable codec : Deepslate.
Variable relative : string -> string.

Local Abbreviation job := (processFile js codec relative).

(** A job ends in one of two ways. *)
Lemma processFile_cases filePath propFilter from useRegex regex
  (w : World (Bytes codec)) :
  (readFile (files w) filePath = None \/
   exists buf, readFile (files w) filePath = Some buf /\
               reads codec buf (attempts (toLowerCase filePath)) = []) \/
  (exists buf nbtFile,
      readFile (files w) filePath = Some buf /\
      parse js codec filePath propFilter from useRegex regex buf = Some nbtFile).
Proof.
  destruct (readFile (files w) filePath) as [buf|] eqn:Hr; [|left; left; reflexivity].
  destruct (parse js codec filePath propFilter from useRegex regex buf)
    as [nbtFile|] eqn:Hp.
  - right. exists buf, nbtFile. split; [reflexivity | exact Hp].
  - left. right. exists buf. split; [reflexivity|]. apply parse_none in Hp.
    exact Hp.
Qed.

(** A job keeps the file names and every file but its own. *)
Lemma processFile_frame filePath rIndex propFilter from to useRegex regex
  (notify : bool) (w : World (Bytes codec)) :
  let r := job filePath rIndex propFilter from to useRegex regex notify w in
  map fst (files (fst r)) = map fst (files w) /\
  (forall q, q <> filePath ->
             readFile (files (fst r)) q = readFile (files w) q).
Proof.
  intro r. subst r.
  destruct (processFile_cases filePath propFilter from useRegex regex w)
    as [Hf|(buf & nbtFile & Hr & Hp)].
  - rewrite (processFile_failed js codec relative filePath rIndex propFilter
               from to useRegex regex notify w Hf).
    split; [reflexivity | intros; reflexivity].
  - rewrite (processFile_parsed js codec relative filePath rIndex propFilter
               from to useRegex regex notify w buf nbtFile Hr Hp).
    destruct (0 <? _)%nat;
      [destruct (NbtFile_write codec _) as [out|];
       [destruct (fs_writeFile codec filePath buf out)|]|];
      cbn [fst files];
      try (split; [reflexivity | intros; reflexivity]);
      (split; [eapply writeFile_names; exact Hr|]);
      intros q Hq; apply readFile_writeFile_other; exact Hq.
Qed.

(** A job completes one write exactly when it reports a changed file, its
    operations are added after those of the world it starts in, and it
    reports no more changed files than changed strings. *)
Lemma processFile_writes filePath rIndex propFilter from to useRegex regex
  (notify : bool) (w : World (Bytes codec)) :
  let r := job filePath rIndex propFilter from to useRegex regex notify w in
  countWrites (ops (fst r)) =
    countWrites (ops w) +
    match snd r with inr res => filesChanged res | inl _ => 0 end /\
  match snd r with
  | inr res => filesChanged res <= stringsChanged res
  | inl _ => True
  end.
Proof.
  intro r. subst r.
  destruct (processFile_cases filePath propFilter from useRegex regex w)
    as [Hf|(buf & nbtFile & Hr & Hp)].
  - rewrite (processFile_failed js codec relative filePath rIndex propFilter
               from to useRegex regex notify w Hf).
    cbn [fst snd ops]. unfold countWrites. rewrite filter_app, length_app.
    cbn. split; [lia | exact I].
  - rewrite (processFile_parsed js codec relative filePath rIndex propFilter
               from to useRegex regex notify w buf nbtFile Hr Hp).
    destruct (0 <? _)%nat eqn:Hn;
      [destruct (NbtFile_write codec _) as [out|];
       [destruct (fs_writeFile codec filePath buf out)|]|];
      cbn [fst snd ops filesChanged stringsChanged];
      unfold countWrites; rewrite !filter_app, !length_app; cbn;
      try (apply Nat.ltb_lt in Hn); split; try exact I; lia.
Qed.

End JobFacts.

(** X7. Parsing fails exactly when every strategy of the primary list
    throws; the retry strategies never turn a parsed file into a failure.
    A file that parses is one that some strategy of the two lists has
    read. *)
Theorem parse_fails_only_when_all_throw (js : JsRegExp) (codec : Deepslate)
  (filePath : string) (propFilter : option string) (from : string)
  (useRegex : bool) (regex : option (RegExp js)) (buf : Bytes codec) :
  (parse js codec filePath propFilter from useRegex regex buf = None <->
   reads codec buf (attempts (toLowerCase filePath)) = []) /\
  (forall nbtFile,
      parse js codec filePath propFilter from useRegex regex buf = Some nbtFile ->
      In nbtFile
         (reads codec buf (attempts (toLowerCase filePath) ++ retryStrategies))).
Proof.
  split; [apply parse_none | intro nbtFile; apply parse_some].
Qed.

(** X8. A file that the codec reads with its default options is parsed,
    whatever its name. *)
Theorem default_readable_parses (js : JsRegExp) (codec : Deepslate)
  (filePath : string) (propFilter : option string) (from : string)
  (useRegex : bool) (regex : option (RegExp js)) (buf : Bytes codec)
  (f : Meta codec * Tree)
  (Hauto : NbtFile_read codec buf None = Some f) :
  exists nbtFile,
    parse js codec filePath propFilter from useRegex regex buf = Some nbtFile.
Proof.
  destruct (parse js codec filePath propFilter from useRegex regex buf)
    as [nbtFile|] eqn:Hp; [eauto|].
  apply parse_none in Hp.
  pose proof (reads_in codec buf (attempts (toLowerCase filePath))
                {| opts := None; label := "auto" |} f
                (attempts_auto _) Hauto) as Hin.
  rewrite Hp in Hin. destruct Hin.
Qed.



(** X11. A job never adds or removes a file, and it leaves the content of
    every file other than its own as it was. *)
Theorem job_frame (js : JsRegExp) (codec : Deepslate)
  (relative : string -> string)
  (filePath : string) (rIndex : nat) (propFilter : option string)
  (from to : string) (useRegex : bool) (regex : option (RegExp js))
  (notify : bool) (w : World (Bytes codec)) :
  let r := processFile js codec relative filePath rIndex propFilter from to
             useRegex regex notify w in
  map fst (files (fst r)) = map fst (files w) /\
  (forall q, q <> filePath ->
             readFile (files (fst r)) q = readFile (files w) q).
Proof. apply processFile_frame. Qed.

(** The Bedrock reading is not needed for a file the defaults read. *)
Lemma default_readable_parses_witness :
  exists nbtFile,
    parse wordPatterns twoLayouts "a.mcstructure" None "west" false None
      emptyThenNorth = Some nbtFile.
Proof.
  exact (default_readable_parses wordPatterns twoLayouts "a.mcstructure" None
           "west" false None emptyThenNorth (false, NbtCompound []) eq_refl).
Defined.


(* ================================================================== *)
(** * Further properties of the rule loop *)
(* ================================================================== *)

Section LoopFacts.

Variable js : JsRegExp.
Variable codec : Deepslate.
Variable relative : string -> string.
Variable fg : FileSystem (Bytes codec) -> string -> list string.
Variable cfgNotify : option bool.

Local Abbreviation loop := (forRules js codec relative fg cfgNotify).
Local Abbreviation jobs := (runJobs js codec relative).

(** What the jobs of one rule and the settling of their results keep:
    the file names, the files outside the list, the balance of writes and
    reported files, and files reported no more often than strings. *)
Lemma runJobs_settle filePaths rIndex propFilter from to useRegex regex notify :
  forall (w : World (Bytes codec)) totals lines,
  let r := jobs filePaths rIndex propFilter from to useRegex regex notify w in
  let s := settle (snd r) totals lines in
  map fst (files (fst r)) = map fst (files w) /\
  (forall q, ~ In q filePaths ->
             readFile (files (fst r)) q = readFile (files w) q) /\
  fst (fst s) + countWrites (ops w) = fst totals + countWrites (ops (fst r)) /\
  (fst totals <= snd totals -> fst (fst s) <= snd (fst s)).
Proof.
  induction filePaths as [|filePath rest IH]; intros w totals lines.
  - cbn. repeat split; lia.
  - cbn [runJobs].
    pose proof (processFile_frame js codec relative filePath rIndex propFilter
                  from to useRegex regex notify w) as [Hn Hq].
    pose proof (processFile_writes js codec relative filePath rIndex propFilter
                  from to useRegex regex notify w) as [Hw Hle].
    destruct (processFile js codec relative filePath rIndex propFilter from to
                useRegex regex notify w) as [w1 res].
    cbn [fst snd] in Hn, Hq, Hw, Hle.
    destruct res as [u|res]; cbn [settle].
    + specialize (IH w1 totals (lines ++ [LineErrorProcessingFile])).
      destruct (jobs rest rIndex propFilter from to useRegex regex notify w1)
        as [w2 rs].
      cbn [fst snd settle] in *. destruct IH as (I1 & I2 & I3 & I4).
      repeat split.
      * congruence.
      * intros q Hnot. rewrite I2, Hq; [reflexivity| |]; intro Hx;
          apply Hnot; [left; congruence | right; exact Hx].
      * lia.
      * exact I4.
    + specialize (IH w1 (fst totals + filesChanged res,
                         snd totals + stringsChanged res) lines).
      destruct (jobs rest rIndex propFilter from to useRegex regex notify w1)
        as [w2 rs].
      cbn [fst snd settle] in *. destruct IH as (I1 & I2 & I3 & I4).
      repeat split.
      * congruence.
      * intros q Hnot. rewrite I2, Hq; [reflexivity| |]; intro Hx;
          apply Hnot; [left; congruence | right; exact Hx].
      * lia.
      * intro H. apply I4. lia.
Qed.

(** One turn of the loop: an offending rule ends the run; any other rule
    hands the loop on in a world that keeps the file names, the files its
    pattern does not match, and the two balances. *)
Lemma forRules_head rule rIndex totals (w : World (Bytes codec)) :
  (offending js rule = true /\
   forall rest, exists line,
     loop (rule :: rest) rIndex totals w = (say codec w line, Exit 1)) \/
  (offending js rule = false /\
   exists w' totals',
     (forall rest,
         loop (rule :: rest) rIndex totals w = loop rest (S rIndex) totals' w') /\
     map fst (files w') = map fst (files w) /\
     (forall q, ~ In q (fg (files w) (orEmpty (rule_path rule))) ->
                readFile (files w') q = readFile (files w) q) /\
     fst totals' + countWrites (ops w) = fst totals + countWrites (ops w') /\
     (fst totals <= snd totals -> fst totals' <= snd totals')).
Proof.
  unfold offending. cbn [forRules].
  destruct (missingRequired rule) eqn:Hm;
    [left; split; [reflexivity | intro rest; eexists; reflexivity]|].
  cbn [orb].
  assert (Hrun : forall regex,
    exists w' totals',
      (forall rest,
          match fg (files w) (orEmpty (rule_path rule)) with
          | [] => loop rest (S rIndex) totals w
          | _ :: _ =>
              let '(w1, fileResults) :=
                jobs (fg (files w) (orEmpty (rule_path rule))) rIndex
                  (rule_property rule) (orEmpty (rule_from rule))
                  (orEmpty (rule_to rule)) (isTrue (rule_regex rule)) regex
                  (isTrue match rule_notify rule with
                          | Some n => Some n
                          | None => cfgNotify
                          end) w in
              let '(totals', lines) := settle fileResults totals [] in
              loop rest (S rIndex) totals'
                {| files := files w1; ops := ops w1;
                   console := console w1 ++ lines |}
          end = loop rest (S rIndex) totals' w') /\
      map fst (files w') = map fst (files w) /\
      (forall q, ~ In q (fg (files w) (orEmpty (rule_path rule))) ->
                 readFile (files w') q = readFile (files w) q) /\
      fst totals' + countWrites (ops w) = fst totals + countWrites (ops w') /\
      (fst totals <= snd totals -> fst totals' <= snd totals')).
  { intro regex.
    destruct (fg (files w) (orEmpty (rule_path rule))) as [|f fs] eqn:Hfg.
    - exists w, totals. repeat split; auto.
    - pose proof (runJobs_settle (f :: fs) rIndex (rule_property rule)
                    (orEmpty (rule_from rule)) (orEmpty (rule_to rule))
                    (isTrue (rule_regex rule)) regex
                    (isTrue match rule_notify rule with
                            | Some n => Some n
                            | None => cfgNotify
                            end) w totals []) as H.
      cbn zeta in H.
      destruct (jobs (f :: fs) rIndex (rule_property rule)
                  (orEmpty (rule_from rule)) (orEmpty (rule_to rule))
                  (isTrue (rule_regex rule)) regex _ w) as [w1 fileResults].
      cbn [fst snd] in H.
      destruct (settle fileResults totals []) as [totals' lines] eqn:Hs.
      cbn [fst snd] in H. destruct H as (H1 & H2 & H3 & H4).
      exists {| files := files w1; ops := ops w1;
                console := console w1 ++ lines |}, totals'.
      cbn [files ops]. repeat split; auto. }
  destruct (isTrue (rule_regex rule)); cbn [andb].
  - destruct (compileRule js rule) as [r|] eqn:Hc.
    + right. split; [reflexivity|]. apply Hrun.
    + left. split; [reflexivity | intro rest; eexists; reflexivity].
  - right. split; [reflexivity|]. apply Hrun.
Qed.

End LoopFacts.

Section RunFacts.

Variable js : JsRegExp.
Variable codec : Deepslate.
Variable relative : string -> string.
Variable fg : FileSystem (Bytes codec) -> string -> list string.
Variable cfgNotify : option bool.

Local Abbreviation loop := (forRules js codec relative fg cfgNotify).

(** What every run of the loop keeps, however it ends. *)
Lemma forRules_keeps rules : forall rIndex totals (w : World (Bytes codec)),
  let r := loop rules rIndex totals w in
  map fst (files (fst r)) = map fst (files w) /\
  (forall q,
      (forall rule fs, In rule rules ->
                       ~ In q (fg fs (orEmpty (rule_path rule)))) ->
      readFile (files (fst r)) q = readFile (files w) q) /\
  match snd r with
  | Done a b =>
      existsb (offending js) rules = false /\
      a + countWrites (ops w) = fst totals + countWrites (ops (fst r)) /\
      (fst totals <= snd totals -> a <= b)
  | Exit code => existsb (offending js) rules = true /\ code = 1%Z
  end.
Proof.
  induction rules as [|rule rest IH]; intros rIndex totals w.
  - cbn. repeat split; auto.
  - cbn zeta.
    destruct (forRules_head js codec relative fg cfgNotify rule rIndex totals w)
      as [[Hbad Hexit]|[Hok (w' & totals' & Hstep & Hn & Hq & Hw & Hle)]].
    + destruct (Hexit rest) as [line ->]. cbn [fst snd say files ops existsb].
      rewrite Hbad. repeat split; auto.
    + rewrite Hstep. specialize (IH (S rIndex) totals' w'). cbn zeta in IH.
      destruct IH as (I1 & I2 & I3). cbn [existsb]. rewrite Hok. cbn [orb].
      split; [congruence|]. split.
      * intros q Hnone. rewrite I2, Hq; [reflexivity | |].
        -- apply Hnone. left. reflexivity.
        -- intros rule' fs Hin. apply Hnone. right. exact Hin.
      * destruct (snd (loop rest (S rIndex) totals' w')) as [code|a b].
        -- exact I3.
        -- destruct I3 as (J1 & J2 & J3). repeat split; auto; lia.
Qed.

End RunFacts.


(** X13. A run never adds or removes a file, whether it exits or reaches
    its end. *)
Theorem run_keeps_file_names (js : JsRegExp) (codec : Deepslate)
  (relative : string -> string)
  (fg : FileSystem (Bytes codec) -> string -> list string)
  (cfgNotify : option bool) (rules : list ReplacementRule)
  (w : World (Bytes codec)) :
  map fst (files (fst (main js codec relative fg cfgNotify rules w))) =
  map fst (files w).
Proof. apply forRules_keeps. Qed.

(** X14. A file that no rule's pattern matches has, after the run, the
    content it had before. *)
Theorem unmatched_file_untouched (js : JsRegExp) (codec : Deepslate)
  (relative : string -> string)
  (fg : FileSystem (Bytes codec) -> string -> list string)
  (cfgNotify : option bool) (rules : list ReplacementRule)
  (w : World (Bytes codec)) (q : string)
  (Hunmatched :
     forall rule fs, In rule rules ->
                     ~ In q (fg fs (orEmpty (rule_path rule)))) :
  readFile (files (fst (main js codec relative fg cfgNotify rules w))) q =
  readFile (files w) q.
Proof.
  apply (forRules_keeps js codec relative fg cfgNotify rules 0 (0, 0) w).
  exact Hunmatched.
Qed.

(** X15. When a run reaches its end, the total of changed files it prints
    is the number of writes that resolved during the run, and is at most
    the total of replaced strings: every such write carries at least one
    replacement.  A write that throws is counted in no total. *)
Theorem totals_count_writes (js : JsRegExp) (codec : Deepslate)
  (relative : string -> string)
  (fg : FileSystem (Bytes codec) -> string -> list string)
  (cfgNotify : option bool) (rules : list ReplacementRule)
  (w : World (Bytes codec)) :
  let r := main js codec relative fg cfgNotify rules w in
  match snd r with
  | Done totalFilesChanged totalStringsChanged =>
      totalFilesChanged + countWrites (ops w) = countWrites (ops (fst r)) /\
      totalFilesChanged <= totalStringsChanged
  | Exit _ => True
  end.
Proof.
  intro r. subst r. unfold main.
  pose proof (forRules_keeps js codec relative fg cfgNotify rules 0 (0, 0) w)
    as (_ & _ & H).
  destruct (snd (forRules js codec relative fg cfgNotify rules 0 (0, 0) w));
    [exact I|].
  destruct H as (_ & H1 & H2). cbn [fst snd] in *. split; [lia|].
  apply H2. lia.
Qed.

(** Over files that cannot be written, the rule [west] to [north] replaces
    a String in [a.nbt], the write throws, and the run ends with both
    totals at zero. *)
Example failed_write_is_not_counted :
  let r := main wordPatterns readOnly (fun p => p) everyFile None
             [westToNorth] oneFile in
  snd r = Done 0 0 /\
  files (fst r) = files oneFile /\
  ops (fst r) =
    [OpRead "a.nbt";
     OpWriteFailed "a.nbt"
       (NbtCompound [("facing", NbtString "north")], NbtCompound [])] /\
  console (fst r) =
    [LineRuleFailed 1 "a.nbt"; LineErrorProcessingFile; LineDone 0 0].
Proof. cbv zeta. repeat split. Qed.

(* ================================================================== *)
(** * Properties of the scheduling *)
(* ================================================================== *)

Lemma inject_Z_lt_pred (a b : Z) :
  (inject_Z a - 1 < inject_Z b)%Q -> (a <= b)%Z.
Proof. unfold Qlt, Qminus, Qplus, Qopp, inject_Z. cbn. lia. Qed.

(** What one call of the loop of [processQueue] does. *)
Lemma processQueueFrom_spec pending : forall c,
  let r := processQueueFrom c pending in
  let c' := fst (fst r) in
  let left := snd (fst r) in
  let now := snd r in
  pending = now ++ left /\
  activeTasks c' = (activeTasks c + Z.of_nat (List.length now))%Z /\
  maxConcurrency c' = maxConcurrency c /\
  currentConcurrency c' = currentConcurrency c /\
  recentTimes c' = recentTimes c /\
  (left = [] \/ (currentConcurrency c' <= inject_Z (activeTasks c'))%Q) /\
  (now = [] \/ (inject_Z (activeTasks c') - 1 < currentConcurrency c)%Q) /\
  ((currentConcurrency c <= inject_Z (activeTasks c))%Q -> now = []).
Proof.
  induction pending as [|task rest IH]; intro c; cbn zeta.
  - cbn. repeat split; try lia; left; reflexivity.
  - cbn [processQueueFrom].
    destruct (Qltb_spec (inject_Z (activeTasks c)) (currentConcurrency c))
      as [Hlt|Hge].
    + specialize (IH (setActive c (activeTasks c + 1))). cbn zeta in IH.
      destruct (processQueueFrom (setActive c (activeTasks c + 1)) rest)
        as [[c' left] now].
      cbn [fst snd setActive activeTasks maxConcurrency currentConcurrency
           recentTimes List.length app] in *.
      destruct IH as (I1 & I2 & I3 & I4 & I5 & I6 & I7 & I8).
      split; [congruence|]. split; [lia|].
      repeat (split; [assumption|]).
      split; [|intro; lra].
      right. destruct I7 as [->|I7]; [|exact I7].
      cbn [List.length] in I2. rewrite I2, Z.add_0_r, inject_Z_plus.
      change (inject_Z 1) with 1%Q. lra.
    + cbn [fst snd List.length app].
      repeat split; try lia; try (right; assumption); left; reflexivity.
Qed.

Lemma perm_started (L R F D N : list nat) :
  Permutation L (R ++ F ++ D) -> Permutation (L ++ N) ((R ++ N) ++ F ++ D).
Proof.
  intro H. eapply Permutation_trans; [apply Permutation_app_tail, H|].
  rewrite <- !app_assoc. apply Permutation_app_head.
  rewrite app_assoc. apply Permutation_app_comm.
Qed.

Lemma perm_settled (L R R' F D : list nat) t :
  Permutation L (R ++ F ++ D) -> Permutation R (t :: R') ->
  Permutation L (R' ++ (F ++ [t]) ++ D).
Proof.
  intros H HR. eapply Permutation_trans; [exact H|].
  eapply Permutation_trans; [apply Permutation_app_tail, HR|].
  cbn [app]. rewrite <- (app_assoc F [t] D). cbn [app].
  rewrite (app_assoc R' F (t :: D)). apply Permutation_cons_app.
  rewrite app_assoc. apply Permutation_refl.
Qed.

Lemma perm_released (L R F F' D : list nat) t :
  Permutation L (R ++ F ++ D) -> Permutation F (t :: F') ->
  Permutation L (R ++ F' ++ D ++ [t]).
Proof.
  intros H HF. eapply Permutation_trans; [exact H|].
  apply Permutation_app_head.
  eapply Permutation_trans; [apply Permutation_app_tail, HF|].
  cbn [app]. rewrite (app_assoc F' D [t]). apply Permutation_cons_append.
Qed.

Lemma removeFirst_perm x l :
  existsb (Nat.eqb x) l = true -> Permutation l (x :: removeFirst x l).
Proof.
  induction l as [|y rest IH]; cbn [existsb removeFirst]; [discriminate|].
  destruct (Nat.eqb x y) eqn:Hxy.
  - apply Nat.eqb_eq in Hxy. subst y. intros _. apply Permutation_refl.
  - cbn [orb]. intro H. eapply Permutation_trans;
      [apply perm_skip, IH, H | apply perm_swap].
Qed.

Lemma removeFirst_length x l :
  existsb (Nat.eqb x) l = true ->
  List.length l = S (List.length (removeFirst x l)).
Proof.
  intro H. apply removeFirst_perm in H. apply Permutation_length in H.
  exact H.
Qed.

Lemma processQueue_scheduled C events s :
  scheduled C events s -> scheduled C events (processQueue s).
Proof.
  intros (Hw & Hm & Ha & Hp & Hs). unfold processQueue.
  pose proof (processQueueFrom_spec (queue s) (controller s)) as H.
  cbn zeta in H.
  destruct (processQueueFrom (controller s) (queue s)) as [[c' left] now].
  cbn [fst snd] in H. destruct H as (H1 & H2 & H3 & H4 & H5 & H6 & H7 & H8).
  unfold scheduled, withinLimits in *.
  cbn [controller queue running finishing startedLog released].
  rewrite H3, H4.
  split; [exact Hw|]. split; [exact Hm|]. split; [|split].
  - rewrite H2, Ha, !length_app. lia.
  - apply perm_started, Hp.
  - rewrite <- app_assoc, <- H1. exact Hs.
Qed.

Lemma submitted_snoc events e :
  submitted (events ++ [e]) =
  submitted events ++ match e with Submit task => [task] | _ => [] end.
Proof. unfold submitted. rewrite flat_map_app. cbn. rewrite app_nil_r. reflexivity. Qed.

Lemma recordCompletion_active c d :
  activeTasks (recordCompletion c d) = activeTasks c /\
  maxConcurrency (recordCompletion c d) = maxConcurrency c.
Proof.
  unfold recordCompletion. cbn zeta.
  destruct (_ <=? _)%Z; [|split; reflexivity].
  unfold resetCompleted, adjustConcurrency. cbn [maxConcurrency activeTasks].
  destruct (_ <? 3)%nat; [split; reflexivity|].
  destruct (_ && _); [split; reflexivity|].
  destruct (_ && _); split; reflexivity.
Qed.

Lemma schedulerStep_scheduled C events s e :
  scheduled C events s -> scheduled C (events ++ [e]) (schedulerStep s e).
Proof.
  intro H. destruct e as [task|task duration|task]; cbn [schedulerStep].
  - unfold run. apply processQueue_scheduled.
    destruct H as (Hw & Hm & Ha & Hp & Hs). unfold scheduled.
    cbn [controller queue running finishing startedLog released].
    repeat split; try assumption; try apply Hw.
    rewrite submitted_snoc, app_assoc, Hs. reflexivity.
  - unfold onSettled.
    destruct (existsb (Nat.eqb task) (running s)) eqn:Hin.
    + destruct H as (Hw & Hm & Ha & Hp & Hs). unfold scheduled.
      cbn [controller queue running finishing startedLog released].
      pose proof (recordCompletion_withinLimits (controller s) duration Hw) as Hw'.
      destruct (recordCompletion_active (controller s) duration) as [F2 F1].
      pose proof (removeFirst_length task (running s) Hin) as Hlen.
      pose proof (removeFirst_perm task (running s) Hin) as Hperm.
      split; [exact Hw'|]. split; [congruence|]. split; [|split].
      * rewrite F2, Ha, length_app. cbn [List.length]. lia.
      * eapply perm_settled; [exact Hp | exact Hperm].
      * rewrite submitted_snoc, app_nil_r. exact Hs.
    + destruct H as (Hw & Hm & Ha & Hp & Hs). unfold scheduled.
      repeat split; try assumption; try apply Hw.
      rewrite submitted_snoc, app_nil_r. exact Hs.
  - unfold onFinally.
    destruct (existsb (Nat.eqb task) (finishing s)) eqn:Hin.
    + apply processQueue_scheduled.
      destruct H as (Hw & Hm & Ha & Hp & Hs). unfold scheduled, withinLimits in *.
      cbn [controller queue running finishing startedLog released setActive
           maxConcurrency currentConcurrency activeTasks].
      pose proof (removeFirst_length task (finishing s) Hin) as Hlen.
      pose proof (removeFirst_perm task (finishing s) Hin) as Hperm.
      split; [exact Hw|]. split; [exact Hm|]. split; [lia|]. split.
      * eapply perm_released; [exact Hp | exact Hperm].
      * rewrite submitted_snoc, app_nil_r. exact Hs.
    + destruct H as (Hw & Hm & Ha & Hp & Hs). unfold scheduled.
      repeat split; try assumption; try apply Hw.
      rewrite submitted_snoc, app_nil_r. exact Hs.
Qed.

Lemma schedule_scheduled C events : scheduled C events (schedule C events).
Proof.
  induction events as [|e events IH] using rev_ind.
  - unfold scheduled, schedule. cbn [fold_left newScheduler controller queue
      running finishing startedLog released].
    split; [apply newController_withinLimits|].
    repeat split; constructor.
  - unfold schedule in *. rewrite fold_left_app. cbn [fold_left].
    apply schedulerStep_scheduled, IH.
Qed.

(** A task is started below the working limit only, so the active tasks
    stay below the ceiling plus one. *)
Lemma processQueue_bounded s :
  withinLimits (controller s) ->
  (inject_Z (activeTasks (controller s)) < maxConcurrency (controller s) + 1)%Q ->
  (inject_Z (activeTasks (controller (processQueue s))) <
   maxConcurrency (controller (processQueue s)) + 1)%Q.
Proof.
  unfold withinLimits, processQueue. intros Hw Ha.
  pose proof (processQueueFrom_spec (queue s) (controller s)) as H.
  cbn zeta in H.
  destruct (processQueueFrom (controller s) (queue s)) as [[c' left] now].
  cbn [fst snd controller] in *.
  destruct H as (_ & H2 & H3 & _ & _ & _ & H7 & _). rewrite H3.
  destruct H7 as [->|H7]; [|lra].
  cbn [List.length] in H2. rewrite H2, Z.add_0_r. exact Ha.
Qed.

Lemma schedule_bounded C events :
  (inject_Z (activeTasks (controller (schedule C events))) <
   maxConcurrency (controller (schedule C events)) + 1)%Q.
Proof.
  induction events as [|e events IH] using rev_ind.
  - pose proof (newController_withinLimits C) as [H1 H2].
    unfold schedule. cbn [fold_left newScheduler controller].
    change (activeTasks (newController C)) with 0%Z.
    change (inject_Z 0) with 0%Q. lra.
  - pose proof (schedule_scheduled C events) as (Hw & _).
    unfold schedule in *. rewrite fold_left_app. cbn [fold_left].
    set (s := fold_left schedulerStep events (newScheduler C)) in *.
    destruct e as [task|task duration|task]; cbn [schedulerStep].
    + unfold run. apply processQueue_bounded; assumption.
    + unfold onSettled. destruct (existsb _ _); [|exact IH].
      cbn [controller].
      destruct (recordCompletion_active (controller s) duration) as [-> ->].
      exact IH.
    + unfold onFinally. destruct (existsb _ _); [|exact IH].
      apply processQueue_bounded; cbn [controller].
      * exact Hw.
      * cbn [setActive activeTasks maxConcurrency].
        unfold Z.sub. rewrite inject_Z_plus, inject_Z_opp.
        change (inject_Z 1) with 1%Q. lra.
Qed.

(** X16. After any sequence of calls of [run] and of callbacks of started
    tasks, the number of active tasks is the number of tasks started and
    not yet released; it stays below the ceiling [max(1, C)] plus one, and
    at or below the ceiling when [C] is a whole number. *)
Theorem never_above_ceiling (C : Q) (events : list SchedulerEvent) :
  let s := schedule C events in
  activeTasks (controller s) =
    Z.of_nat (List.length (running s) + List.length (finishing s)) /\
  (0 <= activeTasks (controller s))%Z /\
  (inject_Z (activeTasks (controller s)) < maxConcurrency (controller s) + 1)%Q /\
  (whole C ->
   (inject_Z (activeTasks (controller s)) <= maxConcurrency (controller s))%Q) /\
  maxConcurrency (controller s) = Qmax 1 C.
Proof.
  intro s. subst s.
  pose proof (schedule_scheduled C events) as (_ & Hm & Ha & _).
  pose proof (schedule_bounded C events) as Hb.
  split; [exact Ha|]. split; [lia|]. split; [exact Hb|]. split; [|exact Hm].
  intro HC.
  assert (Hwhole : whole (maxConcurrency (controller (schedule C events)))).
  { rewrite Hm. apply whole_Qmax; [exists 1%Z; reflexivity | exact HC]. }
  destruct Hwhole as [m Hmz]. rewrite Hmz in Hb |- *.
  rewrite <- Zle_Qle. apply inject_Z_lt_pred.
  change 1%Q with (inject_Z 1) in Hb. rewrite <- inject_Z_plus, <- Zlt_Qlt in Hb.
  change 1%Q with (inject_Z 1). unfold Qminus.
  change (- inject_Z 1)%Q with (inject_Z (-1)).
  rewrite <- inject_Z_plus, <- Zlt_Qlt. lia.
Qed.

(** Under the ceiling 2.5 the limit reaches 2.5 after ten completions, and
    three tasks run at a time. *)
Example three_tasks_under_ceiling_2_5 :
  let finish task duration := [Submit task; Settle task duration; Release task] in
  let s := schedule (5 # 2)
             (finish 0%nat 100%Z ++ finish 1%nat 100%Z ++ finish 2%nat 10%Z ++
              finish 3%nat 10%Z ++ finish 4%nat 10%Z ++ finish 5%nat 100%Z ++
              finish 6%nat 100%Z ++ finish 7%nat 1%Z ++ finish 8%nat 1%Z ++
              finish 9%nat 1%Z ++ [Submit 10%nat; Submit 11%nat; Submit 12%nat;
                                   Submit 13%nat]) in
  (maxConcurrency (controller s) == 5 # 2)%Q /\
  (currentConcurrency (controller s) == 5 # 2)%Q /\
  activeTasks (controller s) = 3%Z /\
  running s = [10; 11; 12]%nat /\ queue s = [13]%nat.
Proof. cbv zeta. repeat split. Qed.

(** X17. Tasks start in the order in which they were handed to [run]: the
    tasks started so far, followed by the queue, are the tasks submitted,
    in their order. *)
Theorem tasks_start_in_order (C : Q) (events : list SchedulerEvent) :
  let s := schedule C events in
  startedLog s ++ queue s = submitted events.
Proof. apply schedule_scheduled. Qed.

(** X18. One call of [processQueue] starts a prefix of the queue, in
    order, counts each started task as active, and stops only when the
    queue is empty or the active tasks have reached the working limit. *)
Theorem processQueue_fills_slots (s : Scheduler) :
  let s' := processQueue s in
  exists now,
    queue s = now ++ queue s' /\
    running s' = running s ++ now /\
    startedLog s' = startedLog s ++ now /\
    activeTasks (controller s') =
      (activeTasks (controller s) + Z.of_nat (List.length now))%Z /\
    currentConcurrency (controller s') = currentConcurrency (controller s) /\
    (queue s' = [] \/
     (currentConcurrency (controller s') <=
      inject_Z (activeTasks (controller s')))%Q) /\
    ((currentConcurrency (controller s) <=
      inject_Z (activeTasks (controller s)))%Q ->
     now = []).
Proof.
  intro s'. subst s'. unfold processQueue.
  pose proof (processQueueFrom_spec (queue s) (controller s)) as H.
  cbn zeta in H.
  destruct (processQueueFrom (controller s) (queue s)) as [[c' left] now].
  cbn [fst snd controller queue running startedLog] in *.
  destruct H as (H1 & H2 & H3 & H4 & H5 & H6 & H7 & H8).
  exists now. repeat split; assumption.
Qed.

(** X19. When the test of [waitAll] passes, no task is running or
    finishing, and the tasks released are exactly the tasks submitted,
    each as often as it was submitted. *)
Theorem idle_means_all_done (C : Q) (events : list SchedulerEvent)
  (Hidle : idle (schedule C events) = true) :
  let s := schedule C events in
  running s = [] /\ finishing s = [] /\ queue s = [] /\
  Permutation (released s) (submitted events).
Proof.
  intro s. subst s.
  pose proof (schedule_scheduled C events) as (_ & _ & Ha & Hp & Hs).
  unfold idle in Hidle. apply andb_true_iff in Hidle.
  destruct Hidle as [Hz Hq]. apply Z.leb_le in Hz.
  destruct (queue (schedule C events)) eqn:Eq; [|discriminate].
  destruct (running (schedule C events)) eqn:Er; [|cbn in Ha; lia].
  destruct (finishing (schedule C events)) eqn:Ef; [|cbn in Ha; lia].
  cbn [app] in Hp. rewrite app_nil_r in Hs. rewrite Hs in Hp.
  repeat split. apply Permutation_sym. exact Hp.
Qed.

(** One task, submitted, settled and released. *)
Lemma idle_means_all_done_witness :
  Permutation
    (released (schedule 4 [Submit 7; Settle 7 5; Release 7]))
    (submitted [Submit 7; Settle 7 5; Release 7]).
Proof.
  exact (proj2 (proj2 (proj2
    (idle_means_all_done 4 [Submit 7; Settle 7 5%Z; Release 7] eq_refl)))).
Defined.

(* ================================================================== *)
(** * Further properties of the controller *)
(* ================================================================== *)

Lemma sum_from_equal d xs : forall acc,
  Forall (fun x => x = d) xs ->
  fold_left Z.add xs acc = (acc + Z.of_nat (List.length xs) * d)%Z.
Proof.
  induction xs as [|x xs IH]; intros acc H; [cbn; lia|].
  inversion H; subst. cbn [fold_left List.length]. rewrite IH by assumption.
  lia.
Qed.

Lemma mean_of_equal d n :
  (0 < n)%Z -> (inject_Z (n * d) / inject_Z n == inject_Z d)%Q.
Proof.
  intro Hn. rewrite inject_Z_mult. field.
  intro H. unfold Qeq in H. cbn in H. lia.
Qed.

(** An adjustment over a history of equal durations changes nothing. *)
Lemma adjustConcurrency_steady c d :
  (0 <= d)%Z -> Forall (fun x => x = d) (recentTimes c) ->
  adjustConcurrency c = c.
Proof.
  intros Hd Hall. unfold adjustConcurrency.
  destruct (List.length (recentTimes c) <? 3)%nat eqn:Hl; [reflexivity|].
  apply Nat.ltb_ge in Hl.
  assert (Havg : (avgTime (recentTimes c) == inject_Z d)%Q).
  { unfold avgTime, sum. rewrite (sum_from_equal d) by exact Hall.
    rewrite Z.add_0_l. apply mean_of_equal. lia. }
  assert (Hrec : (recentAvg (recentTimes c) == inject_Z d)%Q).
  { unfold recentAvg, sum, sliceLast.
    rewrite (sum_from_equal d).
    - rewrite length_skipn, Z.add_0_l.
      replace (List.length (recentTimes c) - (List.length (recentTimes c) - 3))
        with 3 by lia.
      apply (mean_of_equal d 3). lia.
    - rewrite <- (firstn_skipn (List.length (recentTimes c) - 3)) in Hall.
      apply Forall_app in Hall. apply Hall. }
  assert (Hq : (0 <= inject_Z d)%Q) by (rewrite <- (Zle_Qle 0); exact Hd).
  assert (Hup : Qltb (recentAvg (recentTimes c))
                  (avgTime (recentTimes c) * (8 # 10)) = false).
  { apply not_true_iff_false. rewrite Qltb_lt, Havg, Hrec. intro H. lra. }
  assert (Hdown : Qltb (avgTime (recentTimes c) * (12 # 10))
                    (recentAvg (recentTimes c)) = false).
  { apply not_true_iff_false. rewrite Qltb_lt, Havg, Hrec. intro H. lra. }
  rewrite Hup, Hdown. reflexivity.
Qed.

Lemma recordCompletion_steady c d :
  (0 <= d)%Z -> Forall (fun x => x = d) (recentTimes c) ->
  currentConcurrency (recordCompletion c d) = currentConcurrency c /\
  Forall (fun x => x = d) (recentTimes (recordCompletion c d)).
Proof.
  intros Hd Hall.
  assert (Hpush : Forall (fun x => x = d) (recentTimes (pushDuration c d))).
  { unfold pushDuration. cbn [recentTimes].
    assert (Hp : Forall (fun x => x = d) (recentTimes c ++ [d])).
    { apply Forall_app. split; [exact Hall | constructor; [reflexivity | constructor]]. }
    destruct (_ <? _)%nat; [|exact Hp].
    destruct (recentTimes c ++ [d]); [exact Hp|]. inversion Hp. assumption. }
  unfold recordCompletion. cbn zeta.
  destruct (_ <=? _)%Z; [|split; [reflexivity | exact Hpush]].
  rewrite (adjustConcurrency_steady (pushDuration c d) d Hd Hpush).
  split; [reflexivity | exact Hpush].
Qed.

Lemma completions_steady d n : forall c,
  (0 <= d)%Z -> Forall (fun x => x = d) (recentTimes c) ->
  currentConcurrency (completions c (repeat d n)) = currentConcurrency c.
Proof.
  induction n as [|n IH]; intros c Hd Hall; [reflexivity|].
  cbn [repeat]. unfold completions in *. cbn [fold_left].
  destruct (recordCompletion_steady c d Hd Hall) as [Hc Ht].
  rewrite IH by assumption. exact Hc.
Qed.


(** X20. Under a steady workload, where every task takes the same
    non-negative time, the working limit stays where it started. *)
Theorem steady_workload_keeps_limit (C : Q) (d : Z) (n : nat)
  (Hd : (0 <= d)%Z) :
  currentConcurrency (completions (newController C) (repeat d n)) =
  Qmax 1 (inject_Z (Qfloor (C / 2))).
Proof.
  rewrite completions_steady; [reflexivity | exact Hd | constructor].
Qed.


(** Twelve tasks of seven milliseconds under the ceiling 8. *)
Lemma steady_workload_witness :
  currentConcurrency (completions (newController 8) (repeat 7%Z 12)) = 4%Q.
Proof.
  exact (steady_workload_keeps_limit 8 7 12 ltac:(discriminate)).
Defined.

(** X22. The normalisation of a pattern leaves no backspace character in
    it, changes nothing in a pattern that holds none, and so changes
    nothing when applied twice. *)
Theorem normPattern_removes_backspaces (from : string) :
  hasBackspace (normPattern from) = false /\
  (hasBackspace from = false -> normPattern from = from) /\
  normPattern (normPattern from) = normPattern from.
Proof.
  assert (H1 : forall s, hasBackspace (normPattern s) = false).
  { induction s as [|c s IH]; [reflexivity|]. cbn [normPattern].
    destruct (Ascii.eqb c (ascii_of_nat 8)) eqn:Hc; cbn [hasBackspace].
    - exact IH.
    - rewrite Hc. exact IH. }
  assert (H2 : forall s, hasBackspace s = false -> normPattern s = s).
  { induction s as [|c s IH]; [reflexivity|]. cbn [hasBackspace normPattern].
    destruct (Ascii.eqb c (ascii_of_nat 8)); cbn [orb]; [discriminate|].
    intro H. rewrite IH by exact H. reflexivity. }
  split; [apply H1|]. split; [apply H2|]. apply H2, H1.
Qed.

(** The rule on [a.nbt] leaves [b.nbt] as it was. *)
Lemma unmatched_file_untouched_witness :
  readFile
    (files (fst (main wordPatterns twoLayouts (fun p => p) exactPath None
                   [westToNorthInA] twoFiles))) "b.nbt" =
  readFile (files twoFiles) "b.nbt".
Proof.
  apply (unmatched_file_untouched wordPatterns twoLayouts (fun p => p)
           exactPath None [westToNorthInA] twoFiles "b.nbt").
  intros rule fs [<-|[]] Hin. unfold exactPath in Hin.
  apply filter_In in Hin. destruct Hin as [_ Hin]. discriminate Hin.
Defined.
